(** * be-secure.c: secure-transport dispatch and private-key file checks

    A shallow embedding of [src/backend/libpq/be-secure.c] (PostgreSQL 11
    line): the read/write dispatch-and-retry loops [secure_read] and
    [secure_write], the raw socket wrappers, and
    [check_ssl_key_file_permissions].

    The C functions talk to collaborators whose code lives elsewhere (the TLS
    provider, the wait set, interrupt processing, [ereport], [stat]).  They
    are embedded as primitives of a small monad: each primitive records the
    call in a trace and takes its answer from the [World]. *)

From Stdlib Require Import ZArith List Bool String Ascii Lia.
Import ListNotations.
Local Open Scope Z_scope.

(** ** Build configuration and constants from headers outside this file *)

(** The preprocessor symbols the file tests, and the constants it takes from
    headers that are not part of it ([errno.h], [storage/latch.h]).  Their
    values are left open. *)
Class Platform : Type := {
  USE_SSL : bool;
  USE_ASSERT_CHECKING : bool;
  WIN32 : bool;
  CYGWIN : bool;
  EWOULDBLOCK : Z;
  EAGAIN : Z;
  WL_LATCH_SET : Z;
  WL_SOCKET_READABLE : Z;
  WL_SOCKET_WRITEABLE : Z;
  WL_POSTMASTER_DEATH : Z;
  (** what [%m] prints for a given [errno] *)
  strerror : Z -> string
}.

(** [<sys/stat.h>]: file type and permission bits (octal 0170000, 0100000,
    0040000, 040, 020, 010, 04, 02, 01). *)
Definition S_IFMT  : Z := 0xF000.
Definition S_IFREG : Z := 0x8000.
Definition S_IFDIR : Z := 0x4000.
Definition S_IRGRP : Z := 0x20.
Definition S_IWGRP : Z := 0x10.
Definition S_IXGRP : Z := 0x08.
Definition S_IROTH : Z := 0x04.
Definition S_IWOTH : Z := 0x02.
Definition S_IXOTH : Z := 0x01.
Definition S_IRWXG : Z := Z.lor S_IRGRP (Z.lor S_IWGRP S_IXGRP).
Definition S_IRWXO : Z := Z.lor S_IROTH (Z.lor S_IWOTH S_IXOTH).
Definition S_ISREG (m : Z) : bool := Z.land m S_IFMT =? S_IFREG.

(** Octal digits, most significant first: [octal [6;4;0]] is C's [0640]. *)
Definition octal (digits : list Z) : Z := fold_left (fun a d => 8 * a + d) digits 0.

(** The permission part of [st_mode] (C's [07777]). *)
Definition perm_bits (m : Z) : Z := Z.land m (octal [7;7;7;7]).

(** A C scalar used as a condition. *)
Definition truthy (z : Z) : bool := negb (z =? 0).

(** ** Data *)

Record Port : Type := {
  sock : Z;
  noblock : bool;
  ssl_in_use : bool
}.

Record struct_stat : Type := {
  st_mode : Z;
  st_uid : Z
}.

(** The file-scope variables of be-secure.c. *)
Record Globals : Type := {
  ssl_cert_file : option string;
  ssl_key_file : option string;
  ssl_ca_file : option string;
  ssl_crl_file : option string;
  ssl_dh_params_file : option string;
  ssl_loaded_verify_locations : bool;
  SSLCipherSuites : option string;
  SSLECDHCurve : option string;
  SSLPreferServerCiphers : bool
}.

Inductive elevel : Type := LOG | FATAL.

Inductive sqlerrcode : Type :=
| ERRCODE_ADMIN_SHUTDOWN
| ERRCODE_CONFIG_FILE_ERROR
| errcode_for_file_access (saved_errno : Z).

Record report : Type := {
  rep_level : elevel;
  rep_code : sqlerrcode;
  rep_msg : string;
  rep_detail : option string
}.

Inductive WaitEventSet : Type := FeBeWaitSet.
Inductive Latch : Type := MyLatch.
Inductive wait_event_info : Type :=
| WAIT_EVENT_CLIENT_READ
| WAIT_EVENT_CLIENT_WRITE.

(** What one call of a transport primitive ([recv], [send], [be_tls_read],
    [be_tls_write]) answers: the returned count, the value [errno] holds
    afterwards, and what a TLS primitive stored through its [waitfor]
    out-parameter ([None]: it stored nothing). *)
Record io_result : Type := {
  io_n : Z;
  io_errno : Z;
  io_waitfor : option Z
}.

(** Calls that leave the file, in program order. *)
Inductive event : Type :=
| Ev_be_tls_read (port : Port) (ptr len : Z) (r : io_result)
| Ev_be_tls_write (port : Port) (ptr len : Z) (r : io_result)
| Ev_recv (s : Z) (ptr len flags : Z) (r : io_result)
| Ev_send (s : Z) (ptr len flags : Z) (r : io_result)
| Ev_ModifyWaitEvent (set : WaitEventSet) (pos : Z) (events : Z)
| Ev_WaitEventSetWait (set : WaitEventSet) (timeout : Z) (nevents : Z)
                      (info : wait_event_info) (occurred : Z)
| Ev_ResetLatch (l : Latch)
| Ev_ProcessClientReadInterrupt (blocked : bool)
| Ev_ProcessClientWriteInterrupt (blocked : bool)
| Ev_ereport (r : report)
| Ev_TrapAssert.

(** Everything outside the function being run: the process state it can read
    or write, and the answers the collaborators will give, call by call. *)
Record World : Type := mkWorld {
  errno : Z;
  pgwin32_noblock : bool;
  globals : Globals;
  (** [stat]: [inl e] fails with [errno = e] *)
  fs : string -> Z + struct_stat;
  euid : Z;
  (** answer to the k-th transport call *)
  transport : nat -> io_result;
  (** [event.events] filled in by the k-th [WaitEventSetWait] *)
  waits : nat -> Z;
  (** whether the k-th interrupt-processing call comes back ([true]) or
      leaves by a non-local exit ([false]) *)
  interrupts : nat -> bool;
  n_io : nat;
  n_wait : nat;
  n_intr : nat
}.

Definition set_errno (e : Z) (w : World) : World :=
  mkWorld e (pgwin32_noblock w) (globals w) (fs w) (euid w)
          (transport w) (waits w) (interrupts w) (n_io w) (n_wait w) (n_intr w).
Definition set_pgwin32_noblock (b : bool) (w : World) : World :=
  mkWorld (errno w) b (globals w) (fs w) (euid w)
          (transport w) (waits w) (interrupts w) (n_io w) (n_wait w) (n_intr w).
Definition next_io (w : World) : World :=
  mkWorld (errno w) (pgwin32_noblock w) (globals w) (fs w) (euid w)
          (transport w) (waits w) (interrupts w) (S (n_io w)) (n_wait w) (n_intr w).
Definition next_wait (w : World) : World :=
  mkWorld (errno w) (pgwin32_noblock w) (globals w) (fs w) (euid w)
          (transport w) (waits w) (interrupts w) (n_io w) (S (n_wait w)) (n_intr w).
Definition next_intr (w : World) : World :=
  mkWorld (errno w) (pgwin32_noblock w) (globals w) (fs w) (euid w)
          (transport w) (waits w) (interrupts w) (n_io w) (n_wait w) (S (n_intr w)).

(** ** The monad: state, trace and the ways a call can fail to return *)

Inductive result (A : Type) : Type :=
| Return (a : A)
  (** [ereport(FATAL, ...)]: the process exits *)
| Fatal (r : report)
  (** interrupt processing raised an error of its own *)
| Interrupted
  (** a failed [Assert] *)
| Trap
  (** the retry budget of the model is used up; the C loop is still going *)
| OutOfFuel.
Arguments Return {A} a.
Arguments Fatal {A} r.
Arguments Interrupted {A}.
Arguments Trap {A}.
Arguments OutOfFuel {A}.

Definition M (A : Type) : Type := World -> list event * World * result A.

Definition ret {A} (a : A) : M A := fun w => ([], w, Return a).

Definition bind {A B} (m : M A) (k : A -> M B) : M B :=
  fun w =>
    let '(t1, w1, r1) := m w in
    match r1 with
    | Return a => let '(t2, w2, r2) := k a w1 in (t1 ++ t2, w2, r2)
    | Fatal r => (t1, w1, Fatal r)
    | Interrupted => (t1, w1, Interrupted)
    | Trap => (t1, w1, Trap)
    | OutOfFuel => (t1, w1, OutOfFuel)
    end.

Declare Scope io_scope.
Delimit Scope io_scope with io.
Notation "x <- c1 ;; c2" := (bind c1 (fun x => c2))
  (at level 61, c1 at next level, right associativity) : io_scope.
Notation "' pat <- c1 ;; c2" := (bind c1 (fun x => match x with pat => c2 end))
  (at level 61, pat pattern, c1 at next level, right associativity) : io_scope.
Notation "c1 ;; c2" := (bind c1 (fun _ => c2))
  (at level 61, right associativity) : io_scope.
Local Open Scope io_scope.

Definition trace_of {A} (x : list event * World * result A) : list event := fst (fst x).
Definition world_of {A} (x : list event * World * result A) : World := snd (fst x).
Definition result_of {A} (x : list event * World * result A) : result A := snd x.

Definition emit (e : event) : M unit := fun w => ([e], w, Return tt).
Definition get {A} (f : World -> A) : M A := fun w => ([], w, Return (f w)).
Definition modify (f : World -> World) : M unit := fun w => ([], f w, Return tt).
Definition exit_with {A} (r : result A) : M A := fun w => ([], w, r).
Definition when (c : bool) (m : M unit) : M unit := if c then m else ret tt.

(** Which of the two loops is running. *)
Inductive direction : Type := Reading | Writing.

(** ** Collaborators *)

Section Program.
Context {P : Platform}.

(** Modelled from the spec: [ereport] is a macro of utils/elog.h, which is not
    part of this file.  A report at FATAL ends the process, so control does not
    come back to the caller; a report at LOG is written and control goes on. *)
Definition ereport (lvl : elevel) (code : sqlerrcode) (msg : string)
    (detail : option string) : M unit :=
  let r := {| rep_level := lvl; rep_code := code; rep_msg := msg; rep_detail := detail |} in
  emit (Ev_ereport r) ;;
  match lvl with
  | FATAL => exit_with (Fatal r)
  | LOG => ret tt
  end.

(** [Assert] of c.h: checked only in assert-enabled builds. *)
Definition Assert (c : Z) : M unit :=
  if USE_ASSERT_CHECKING && negb (truthy c)
  then emit Ev_TrapAssert ;; exit_with Trap
  else ret tt.

(** One call into the transport ([recv] and [send] of the system, [be_tls_read]
    and [be_tls_write] of be-secure-openssl.c): take the next answer, leave
    its [errno]. *)
Definition transport_call (mk : io_result -> event) : M io_result :=
  fun w =>
    let r := transport w (n_io w) in
    ([mk r], set_errno (io_errno r) (next_io w), Return r).

Definition recv (s ptr len flags : Z) : M Z :=
  r <- transport_call (Ev_recv s ptr len flags) ;; ret (io_n r).
Definition send (s ptr len flags : Z) : M Z :=
  r <- transport_call (Ev_send s ptr len flags) ;; ret (io_n r).

(** The TLS primitives get [&waitfor]: they are given the current value and
    the value after the call is handed back with the count. *)
Definition be_tls_read (port : Port) (ptr len : Z) (waitfor : Z) : M (Z * Z) :=
  r <- transport_call (Ev_be_tls_read port ptr len) ;;
  ret (io_n r, match io_waitfor r with Some d => d | None => waitfor end).
Definition be_tls_write (port : Port) (ptr len : Z) (waitfor : Z) : M (Z * Z) :=
  r <- transport_call (Ev_be_tls_write port ptr len) ;;
  ret (io_n r, match io_waitfor r with Some d => d | None => waitfor end).

(** [ModifyWaitEvent(set, pos, events, latch)]; the loops always pass a NULL
    latch, which is not recorded. *)
Definition ModifyWaitEvent (set : WaitEventSet) (pos events : Z) : M unit :=
  emit (Ev_ModifyWaitEvent set pos events).

(** [WaitEventSetWait] of storage/ipc/latch.c: hands back [event.events] of
    the one event asked for. *)
Definition WaitEventSetWait (set : WaitEventSet) (timeout nevents : Z)
    (info : wait_event_info) : M Z :=
  fun w =>
    let occurred := waits w (n_wait w) in
    ([Ev_WaitEventSetWait set timeout nevents info occurred], next_wait w, Return occurred).

Definition ResetLatch (l : Latch) : M unit := emit (Ev_ResetLatch l).

(** Modelled from the spec: [ProcessClientReadInterrupt] and
    [ProcessClientWriteInterrupt] belong to tcop/postgres.c.  Interrupt
    processing hands nothing back and may raise an error of its own, in which
    case control does not come back to the loop. *)
Definition process_interrupt (e : event) : M unit :=
  fun w => ([e], next_intr w, if interrupts w (n_intr w) then Return tt else Interrupted).
Definition ProcessClientReadInterrupt (blocked : bool) : M unit :=
  process_interrupt (Ev_ProcessClientReadInterrupt blocked).
Definition ProcessClientWriteInterrupt (blocked : bool) : M unit :=
  process_interrupt (Ev_ProcessClientWriteInterrupt blocked).

(** [stat]: the return code and the buffer (left zeroed on failure). *)
Definition stat (path : string) : M (Z * struct_stat) :=
  fun w =>
    match fs w path with
    | inl e => ([], set_errno e w, Return (-1, {| st_mode := 0; st_uid := 0 |}))
    | inr buf => ([], w, Return (0, buf))
    end.

Definition geteuid : M Z := get euid.

(** ** The functions of be-secure.c *)

Definition secure_raw_read (port : Port) (ptr len : Z) : M Z :=
  when WIN32 (modify (set_pgwin32_noblock true)) ;;
  n <- recv (sock port) ptr len 0 ;;
  when WIN32 (modify (set_pgwin32_noblock false)) ;;
  ret n.

Definition secure_raw_write (port : Port) (ptr len : Z) : M Z :=
  when WIN32 (modify (set_pgwin32_noblock true)) ;;
  n <- send (sock port) ptr len 0 ;;
  when WIN32 (modify (set_pgwin32_noblock false)) ;;
  ret n.

Definition postmaster_exit_msg : string :=
  "terminating connection due to unexpected postmaster exit".

(** [secure_read].  The [goto retry] is the recursive call; [fuel] bounds the
    number of transport attempts the model follows. *)
Fixpoint secure_read (fuel : nat) (port : Port) (ptr len : Z) : M Z :=
  match fuel with
  | O => exit_with OutOfFuel
  | S fuel' =>
    ' (n, waitfor) <-
      (if USE_SSL && ssl_in_use port
       then be_tls_read port ptr len 0
       else n <- secure_raw_read port ptr len ;; ret (n, WL_SOCKET_READABLE)) ;;
    e <- get errno ;;
    if (n <? 0) && negb (noblock port) && ((e =? EWOULDBLOCK) || (e =? EAGAIN))
    then
      Assert waitfor ;;
      ModifyWaitEvent FeBeWaitSet 0 waitfor ;;
      occurred <- WaitEventSetWait FeBeWaitSet (-1) 1 WAIT_EVENT_CLIENT_READ ;;
      when (truthy (Z.land occurred WL_POSTMASTER_DEATH))
           (ereport FATAL ERRCODE_ADMIN_SHUTDOWN postmaster_exit_msg None) ;;
      when (truthy (Z.land occurred WL_LATCH_SET))
           (ResetLatch MyLatch ;; ProcessClientReadInterrupt true) ;;
      secure_read fuel' port ptr len
    else
      ProcessClientReadInterrupt false ;;
      ret n
  end.

(** [secure_write]. *)
Fixpoint secure_write (fuel : nat) (port : Port) (ptr len : Z) : M Z :=
  match fuel with
  | O => exit_with OutOfFuel
  | S fuel' =>
    ' (n, waitfor) <-
      (if USE_SSL && ssl_in_use port
       then be_tls_write port ptr len 0
       else n <- secure_raw_write port ptr len ;; ret (n, WL_SOCKET_WRITEABLE)) ;;
    e <- get errno ;;
    if (n <? 0) && negb (noblock port) && ((e =? EWOULDBLOCK) || (e =? EAGAIN))
    then
      Assert waitfor ;;
      ModifyWaitEvent FeBeWaitSet 0 waitfor ;;
      occurred <- WaitEventSetWait FeBeWaitSet (-1) 1 WAIT_EVENT_CLIENT_WRITE ;;
      when (truthy (Z.land occurred WL_POSTMASTER_DEATH))
           (ereport FATAL ERRCODE_ADMIN_SHUTDOWN postmaster_exit_msg None) ;;
      when (truthy (Z.land occurred WL_LATCH_SET))
           (ResetLatch MyLatch ;; ProcessClientWriteInterrupt true) ;;
      secure_write fuel' port ptr len
    else
      ProcessClientWriteInterrupt false ;;
      ret n
  end.

Definition dquote : string := String "034"%char EmptyString.
Definition quoted (s : string) : string := (dquote ++ s ++ dquote)%string.

Definition msg_could_not_access (path : string) (e : Z) : string :=
  ("could not access private key file " ++ quoted path ++ ": " ++ strerror e)%string.
Definition msg_not_regular (path : string) : string :=
  ("private key file " ++ quoted path ++ " is not a regular file")%string.
Definition msg_bad_owner (path : string) : string :=
  ("private key file " ++ quoted path ++ " must be owned by the database user or root")%string.
Definition msg_group_world (path : string) : string :=
  ("private key file " ++ quoted path ++ " has group or world access")%string.
Definition detail_group_world : string :=
  "File must have permissions u=rw (0600) or less if owned by the database user, or permissions u=rw,g=r (0640) or less if owned by root.".

(** [check_ssl_key_file_permissions].  Each early [return false] is the end of
    its branch; the two [#if !defined(WIN32) && !defined(__CYGWIN__)] blocks
    are the [negb WIN32 && negb CYGWIN] guards. *)
Definition check_ssl_key_file_permissions (ssl_key_file : string)
    (isServerStart : bool) : M bool :=
  let loglevel := if isServerStart then FATAL else LOG in
  ' (rc, buf) <- stat ssl_key_file ;;
  if negb (rc =? 0) then
    e <- get errno ;;
    ereport loglevel (errcode_for_file_access e)
            (msg_could_not_access ssl_key_file e) None ;;
    ret false
  else if negb (S_ISREG (st_mode buf)) then
    ereport loglevel ERRCODE_CONFIG_FILE_ERROR (msg_not_regular ssl_key_file) None ;;
    ret false
  else
    uid <- geteuid ;;
    if negb WIN32 && negb CYGWIN &&
       (negb (st_uid buf =? uid) && negb (st_uid buf =? 0)) then
      ereport loglevel ERRCODE_CONFIG_FILE_ERROR (msg_bad_owner ssl_key_file) None ;;
      ret false
    else
      uid <- geteuid ;;
      if negb WIN32 && negb CYGWIN &&
         (((st_uid buf =? uid) &&
           truthy (Z.land (st_mode buf) (Z.lor S_IRWXG S_IRWXO))) ||
          ((st_uid buf =? 0) &&
           truthy (Z.land (st_mode buf) (Z.lor S_IWGRP (Z.lor S_IXGRP S_IRWXO))))) then
        ereport loglevel ERRCODE_CONFIG_FILE_ERROR (msg_group_world ssl_key_file)
                (Some detail_group_world) ;;
        ret false
      else
        ret true.

(** Either loop, by direction. *)
Definition secure_io (d : direction) : nat -> Port -> Z -> Z -> M Z :=
  match d with
  | Reading => secure_read
  | Writing => secure_write
  end.

End Program.

(** ** The key-file policy, check by check *)

Inductive violation : Type :=
| CannotStat (e : Z)
| NotRegular
| BadOwner
| GroupWorldAccess.

Fixpoint first_failure {V : Type} (checks : list (bool * V)) : option V :=
  match checks with
  | [] => None
  | (passes, v) :: rest => if passes then first_failure rest else Some v
  end.

Section Policy.
Context {P : Platform}.

Definition diagnostic (path : string) (v : violation) : sqlerrcode * string * option string :=
  match v with
  | CannotStat e => (errcode_for_file_access e, msg_could_not_access path e, None)
  | NotRegular => (ERRCODE_CONFIG_FILE_ERROR, msg_not_regular path, None)
  | BadOwner => (ERRCODE_CONFIG_FILE_ERROR, msg_bad_owner path, None)
  | GroupWorldAccess =>
      (ERRCODE_CONFIG_FILE_ERROR, msg_group_world path, Some detail_group_world)
  end.

Definition report_of (strict : bool) (path : string) (v : violation) : report :=
  let '(code, msg, detail) := diagnostic path v in
  {| rep_level := if strict then FATAL else LOG;
     rep_code := code; rep_msg := msg; rep_detail := detail |}.

(** How a verdict shows to the caller.  No violation: [true], nothing
    reported.  A violation: one report; at FATAL the process exits, at LOG
    [false] comes back.  A failed [stat] leaves its [errno]. *)
Definition verdict (strict : bool) (path : string) (w : World)
    (v : option violation) : list event * World * result bool :=
  match v with
  | None => ([], w, Return true)
  | Some v =>
      let r := report_of strict path v in
      ([Ev_ereport r],
       match v with CannotStat e => set_errno e w | _ => w end,
       if strict then Fatal r else Return false)
  end.

(** Check 2 in the specification's words: the owner is the server's effective
    identity or the superuser. *)
Definition owner_trusted (buf : struct_stat) (uid : Z) : bool :=
  (st_uid buf =? uid) || (st_uid buf =? 0).

(** Check 3 in the specification's words: a file of the server's own identity
    grants nothing to group or others; a file of the superuser grants group
    read at most. *)
Definition access_private (buf : struct_stat) (uid : Z) : bool :=
  let group_other := Z.land (st_mode buf) (Z.lor S_IRWXG S_IRWXO) in
  if st_uid buf =? uid then group_other =? 0
  else if st_uid buf =? 0 then Z.land group_other (Z.lnot S_IRGRP) =? 0
  else true.

(** The ordered checks as the specification lists them: only the ownership
    check is exempted where ownership means nothing. *)
Definition spec_checks (w : World) (buf : struct_stat) : list (bool * violation) :=
  [ (S_ISREG (st_mode buf), NotRegular);
    (WIN32 || CYGWIN || owner_trusted buf (euid w), BadOwner);
    (access_private buf (euid w), GroupWorldAccess) ].

(** The ordered checks with the exemption on both identity-based checks. *)
Definition posix_checks (w : World) (buf : struct_stat) : list (bool * violation) :=
  [ (S_ISREG (st_mode buf), NotRegular);
    (WIN32 || CYGWIN || owner_trusted buf (euid w), BadOwner);
    (WIN32 || CYGWIN || access_private buf (euid w), GroupWorldAccess) ].


Definition validate_by (checks : World -> struct_stat -> list (bool * violation))
    (path : string) (w : World) : option violation :=
  match fs w path with
  | inl e => Some (CannotStat e)
  | inr buf => first_failure (checks w buf)
  end.

(** The five key-file scenarios in the specification's words: a rejected file
    makes the function return [false], with a diagnostic that names what is
    wrong. *)
Definition scenarios_as_specified (path : string) (strict : bool) (w : World)
    (buf : struct_stat) : Prop :=
  let out := check_ssl_key_file_permissions path strict w in
  let regular := Z.land (st_mode buf) S_IFMT = S_IFREG in
  let mode := perm_bits (st_mode buf) in
  let returns_false_naming msg :=
    result_of out = Return false /\
    exists r, trace_of out = [Ev_ereport r] /\ rep_msg r = msg in
  (regular -> mode = octal [6;0;0] -> st_uid buf = euid w ->
     result_of out = Return true) /\
  (regular -> mode = octal [6;4;4] -> st_uid buf = euid w \/ st_uid buf = 0 ->
     returns_false_naming (msg_group_world path)) /\
  (regular -> mode = octal [6;4;0] -> st_uid buf = 0 ->
     result_of out = Return true) /\
  (regular -> mode = octal [6;4;0] -> st_uid buf = euid w ->
     returns_false_naming (msg_group_world path)) /\
  (Z.land (st_mode buf) S_IFMT = S_IFDIR ->
     returns_false_naming (msg_not_regular path)).

End Policy.

(** ** The retry loop, one round at a time

    A round is one pass through the body of [secure_read] or [secure_write]:
    from the label [retry] to the [goto retry], or to the way out.  The
    definitions below spell a round out event by event; the two functions are
    proved equal to the iteration of rounds, and the properties of the loop
    are stated on the functions and proved through the rounds. *)

Inductive round_end : Type :=
| Retry
| Stop (r : result Z).

Definition postmaster_report : report :=
  {| rep_level := FATAL; rep_code := ERRCODE_ADMIN_SHUTDOWN;
     rep_msg := postmaster_exit_msg; rep_detail := None |}.

Section Rounds.
Context {P : Platform}.
Variables (d : direction) (port : Port) (ptr len : Z).

(** The call goes to the TLS provider. *)
Definition encrypted : bool := USE_SSL && ssl_in_use port.

(** The transport call of a round, with its answer. *)
Definition io_event (r : io_result) : event :=
  match d, encrypted with
  | Reading, true => Ev_be_tls_read port ptr len r
  | Reading, false => Ev_recv (sock port) ptr len 0 r
  | Writing, true => Ev_be_tls_write port ptr len r
  | Writing, false => Ev_send (sock port) ptr len 0 r
  end.

(** The readiness a plain [recv] or [send] waits for. *)
Definition nominal_direction : Z :=
  match d with
  | Reading => WL_SOCKET_READABLE
  | Writing => WL_SOCKET_WRITEABLE
  end.

(** The value of the local [waitfor] after the transport call. *)
Definition waitfor_of (r : io_result) : Z :=
  if encrypted
  then match io_waitfor r with Some x => x | None => 0 end
  else nominal_direction.

Definition interrupt_event (blocked : bool) : event :=
  match d with
  | Reading => Ev_ProcessClientReadInterrupt blocked
  | Writing => Ev_ProcessClientWriteInterrupt blocked
  end.

Definition wait_info : wait_event_info :=
  match d with
  | Reading => WAIT_EVENT_CLIENT_READ
  | Writing => WAIT_EVENT_CLIENT_WRITE
  end.

(** A negative count with [errno] EWOULDBLOCK or EAGAIN. *)
Definition would_block (n e : Z) : bool :=
  (n <? 0) && ((e =? EWOULDBLOCK) || (e =? EAGAIN)).

(** The test that sends the loop into the wait. *)
Definition must_wait (n e : Z) : bool :=
  (n <? 0) && negb (noblock port) && ((e =? EWOULDBLOCK) || (e =? EAGAIN)).

Definition postmaster_died (occurred : Z) : bool :=
  truthy (Z.land occurred WL_POSTMASTER_DEATH).
Definition latch_set (occurred : Z) : bool :=
  truthy (Z.land occurred WL_LATCH_SET).

(** The world after the transport call. *)
Definition after_io (w : World) (r : io_result) : World :=
  if negb encrypted && WIN32
  then set_pgwin32_noblock false
         (set_errno (io_errno r) (next_io (set_pgwin32_noblock true w)))
  else set_errno (io_errno r) (next_io w).

Definition wait_events (r : io_result) (occurred : Z) : list event :=
  [ io_event r;
    Ev_ModifyWaitEvent FeBeWaitSet 0 (waitfor_of r);
    Ev_WaitEventSetWait FeBeWaitSet (-1) 1 wait_info occurred ].

Definition round (w : World) : list event * World * round_end :=
  let r := transport w (n_io w) in
  let w1 := after_io w r in
  if must_wait (io_n r) (io_errno r) then
    if USE_ASSERT_CHECKING && negb (truthy (waitfor_of r)) then
      ([io_event r; Ev_TrapAssert], w1, Stop Trap)
    else
      let occurred := waits w (n_wait w) in
      let w2 := next_wait w1 in
      if postmaster_died occurred then
        (wait_events r occurred ++ [Ev_ereport postmaster_report], w2,
         Stop (Fatal postmaster_report))
      else if latch_set occurred then
        (wait_events r occurred ++ [Ev_ResetLatch MyLatch; interrupt_event true],
         next_intr w2,
         if interrupts w (n_intr w) then Retry else Stop Interrupted)
      else
        (wait_events r occurred, w2, Retry)
  else
    ([io_event r; interrupt_event false], next_intr w1,
     Stop (if interrupts w (n_intr w) then Return (io_n r) else Interrupted)).

Fixpoint rounds (fuel : nat) (w : World) : list event * World * result Z :=
  match fuel with
  | O => ([], w, OutOfFuel)
  | S fuel' =>
      let '(t, w1, e) := round w in
      match e with
      | Retry => let '(t2, w2, r) := rounds fuel' w1 in (t ++ t2, w2, r)
      | Stop r => (t, w1, r)
      end
  end.

End Rounds.

(** ** Reading traces *)

Section Traces.
Context {P : Platform}.

(** A transport call that answered would-block. *)
Definition answers_would_block (e : event) : bool :=
  match e with
  | Ev_be_tls_read _ _ _ r | Ev_be_tls_write _ _ _ r
  | Ev_recv _ _ _ _ r | Ev_send _ _ _ _ r => would_block (io_n r) (io_errno r)
  | _ => false
  end.

(** A wait that came back for the latch, the postmaster being alive. *)
Definition wakes (e : event) : bool :=
  match e with
  | Ev_WaitEventSetWait _ _ _ _ occurred =>
      latch_set occurred && negb (postmaster_died occurred)
  | _ => false
  end.

End Traces.

Definition is_io (e : event) : bool :=
  match e with
  | Ev_be_tls_read _ _ _ _ | Ev_be_tls_write _ _ _ _
  | Ev_recv _ _ _ _ _ | Ev_send _ _ _ _ _ => true
  | _ => false
  end.

Definition is_wait (e : event) : bool :=
  match e with
  | Ev_ModifyWaitEvent _ _ _ | Ev_WaitEventSetWait _ _ _ _ _ => true
  | _ => false
  end.

(** The answer carried by a transport event. *)
Definition answer_of (e : event) : option io_result :=
  match e with
  | Ev_be_tls_read _ _ _ r | Ev_be_tls_write _ _ _ r
  | Ev_recv _ _ _ _ r | Ev_send _ _ _ _ r => Some r
  | _ => None
  end.

(** What a wait handed back. *)
Definition occurred_of (e : event) : option Z :=
  match e with
  | Ev_WaitEventSetWait _ _ _ _ occurred => Some occurred
  | _ => None
  end.

Definition count (f : event -> bool) (t : list event) : nat :=
  List.length (filter f t).

Definition is_WaitEventSetWait (e : event) : bool :=
  match e with
  | Ev_WaitEventSetWait _ _ _ _ _ => true
  | _ => false
  end.

(** Interrupt processing called with the given [blocked] argument. *)
Definition is_interrupt (blocked : bool) (e : event) : bool :=
  match e with
  | Ev_ProcessClientReadInterrupt b | Ev_ProcessClientWriteInterrupt b =>
      Bool.eqb b blocked
  | _ => false
  end.

(** A trace is empty only when the fuel ran out at once; otherwise it opens
    with the transport call. *)
Definition opens_with_io (t : list event) (res : result Z) : Prop :=
  match t with
  | [] => res = OutOfFuel
  | e :: _ => is_io e = true
  end.

(** [Q e rest] holds of every event [e] of the trace together with the events
    [rest] that come after it. *)
Fixpoint each_followed (Q : event -> list event -> Prop) (t : list event) : Prop :=
  match t with
  | [] => True
  | e :: rest => Q e rest /\ each_followed Q rest
  end.

(** ** Concrete builds and worlds, for running the functions *)

Definition strerror_linux (e : Z) : string :=
  if e =? 2 then "No such file or directory"
  else if e =? 13 then "Permission denied"
  else "Unknown error".

(** A Linux build with TLS and assertions ([errno.h]: EAGAIN = EWOULDBLOCK =
    11; latch.h: flags 1, 2, 4 and 16). *)
Definition linux_build : Platform := {|
  USE_SSL := true; USE_ASSERT_CHECKING := true; WIN32 := false; CYGWIN := false;
  EWOULDBLOCK := 11; EAGAIN := 11;
  WL_LATCH_SET := 1; WL_SOCKET_READABLE := 2; WL_SOCKET_WRITEABLE := 4;
  WL_POSTMASTER_DEATH := 16;
  strerror := strerror_linux
|}.

(** A native Windows build (WSAEWOULDBLOCK = 10035). *)
Definition windows_build : Platform := {|
  USE_SSL := true; USE_ASSERT_CHECKING := false; WIN32 := true; CYGWIN := false;
  EWOULDBLOCK := 10035; EAGAIN := 11;
  WL_LATCH_SET := 1; WL_SOCKET_READABLE := 2; WL_SOCKET_WRITEABLE := 4;
  WL_POSTMASTER_DEATH := 16;
  strerror := strerror_linux
|}.

Definition no_globals : Globals := {|
  ssl_cert_file := None; ssl_key_file := None; ssl_ca_file := None;
  ssl_crl_file := None; ssl_dh_params_file := None;
  ssl_loaded_verify_locations := false;
  SSLCipherSuites := None; SSLECDHCurve := None; SSLPreferServerCiphers := false
|}.

Definition quiet_io : io_result := {| io_n := 0; io_errno := 0; io_waitfor := None |}.

(** A world with server identity [uid], the given files, and collaborators
    that answer as the three scripts say (then end of file, a plain socket
    event, a plain return). *)
Definition world_with (uid : Z) (files : string -> Z + struct_stat)
    (ios : list io_result) (ws : list Z) (ints : list bool) : World :=
  mkWorld 0 false no_globals files uid
          (fun k => nth k ios quiet_io) (fun k => nth k ws 0) (fun k => nth k ints true)
          O O O.

(** A file system holding one entry, [/tmp/key.pem]; every other path fails
    with ENOENT. *)
Definition one_file (buf : struct_stat) (path : string) : Z + struct_stat :=
  if String.eqb path "/tmp/key.pem" then inr buf else inl 2.

Definition key_world (uid : Z) (mode owner : Z) : World :=
  world_with uid (one_file {| st_mode := mode; st_uid := owner |}) [] [] [].



(** Ports and transport answers for running the loops on the Linux build. *)
Definition plain_port : Port := {| sock := 7; noblock := false; ssl_in_use := false |}.
Definition tls_port : Port := {| sock := 7; noblock := false; ssl_in_use := true |}.
Definition nonblocking_port : Port := {| sock := 7; noblock := true; ssl_in_use := false |}.

(** [-1] with EAGAIN, the TLS provider saying nothing about a direction. *)
Definition again : io_result := {| io_n := -1; io_errno := 11; io_waitfor := None |}.
(** [-1] with EAGAIN, the TLS provider asking for readiness [dir]. *)
Definition again_for (dir : Z) : io_result :=
  {| io_n := -1; io_errno := 11; io_waitfor := Some dir |}.
(** [n] bytes transferred. *)
Definition moved (n : Z) : io_result := {| io_n := n; io_errno := 0; io_waitfor := None |}.

Definition socket_world (ios : list io_result) (ws : list Z) (ints : list bool) : World :=
  world_with 70 (fun _ => inl 2) ios ws ints.

(** ** More of be-secure.c *)

Section Lifecycle.
Context {P : Platform}.

(** [secure_loaded_verify_locations]: the file-scope flag in a TLS build,
    [false] otherwise. *)
Definition secure_loaded_verify_locations : M bool :=
  if USE_SSL
  then get (fun w => ssl_loaded_verify_locations (globals w))
  else ret false.

End Lifecycle.

(** ** More ways to read a trace *)

(** A call into the TLS provider. *)
Definition is_tls (e : event) : bool :=
  match e with
  | Ev_be_tls_read _ _ _ _ | Ev_be_tls_write _ _ _ _ => true
  | _ => false
  end.

(** The events the loop of direction [d] can produce: its own transport
    primitives and interrupt processing, and what both loops share. *)
Definition emitted_by (d : direction) (e : event) : bool :=
  match e, d with
  | Ev_be_tls_read _ _ _ _, Reading
  | Ev_recv _ _ _ _ _, Reading
  | Ev_ProcessClientReadInterrupt _, Reading => true
  | Ev_be_tls_write _ _ _ _, Writing
  | Ev_send _ _ _ _ _, Writing
  | Ev_ProcessClientWriteInterrupt _, Writing => true
  | Ev_ModifyWaitEvent _ _ _, _
  | Ev_WaitEventSetWait _ _ _ _ _, _
  | Ev_ResetLatch _, _
  | Ev_ereport _, _
  | Ev_TrapAssert, _ => true
  | _, _ => false
  end.

(** A wait as the loop of direction [d] issues it: on the front-end/back-end
    wait set, without timeout, for one event; and a latch reset as it issues
    it: on the process latch. *)
Definition waits_as_issued (d : direction) (e : event) : Prop :=
  match e with
  | Ev_WaitEventSetWait set timeout nevents info _ =>
      set = FeBeWaitSet /\ timeout = -1 /\ nevents = 1 /\ info = wait_info d
  | Ev_ResetLatch l => l = MyLatch
  | _ => True
  end.

Definition is_ModifyWaitEvent (e : event) : bool :=
  match e with
  | Ev_ModifyWaitEvent _ _ _ => true
  | _ => false
  end.

(** A socket that is never ready: every transport call answers EAGAIN, every
    wait comes back for the socket, interrupt processing always returns. *)
Definition stuck_world : World :=
  mkWorld 0 false no_globals (fun _ => inl 2) 70
          (fun _ => again) (fun _ => 2) (fun _ => true) O O O.

(** ** The state in which a round goes back to [retry] *)

Section AfterWait.
Context {P : Platform}.

(** The world when the loop jumps back to [retry]: the transport call and the
    wait are over, and so is the blocking-aware interrupt processing when the
    wait came back for the latch. *)
Definition after_wait (port : Port) (w : World) : World :=
  let r := transport w (n_io w) in
  let w2 := next_wait (after_io port w r) in
  if latch_set (waits w (n_wait w)) then next_intr w2 else w2.

End AfterWait.

(** [ModifyWaitEvent] takes its flags as [uint32] (storage/latch.h); the loops
    pass the [int] variable [waitfor].  This is the value the parameter
    holds. *)
Definition as_uint32 (z : Z) : Z := z mod 2 ^ 32.
(** * Properties *)

Example key_0600_own :
  @check_ssl_key_file_permissions linux_build "/tmp/key.pem" true
     (key_world 70 (Z.lor S_IFREG (octal [6;0;0])) 70)
  = ([], key_world 70 (Z.lor S_IFREG (octal [6;0;0])) 70, Return true).
Proof. reflexivity. Qed.

Example key_missing :
  trace_of (@check_ssl_key_file_permissions linux_build "/tmp/other.pem" false
     (key_world 70 (Z.lor S_IFREG (octal [6;0;0])) 70))
  = [Ev_ereport {| rep_level := LOG; rep_code := errcode_for_file_access 2;
                   rep_msg := "could not access private key file " ++ dquote ++
                              "/tmp/other.pem" ++ dquote ++ ": No such file or directory";
                   rep_detail := None |}].
Proof. reflexivity. Qed.

(** ** The private-key file guard *)

Section KeyFileGuard.
Context {P : Platform}.

Lemma group_read_only (m : Z) :
  Z.land (Z.land m (Z.lor S_IRWXG S_IRWXO)) (Z.lnot S_IRGRP)
  = Z.land m (Z.lor S_IWGRP (Z.lor S_IXGRP S_IRWXO)).
Proof. rewrite <- Z.land_assoc. reflexivity. Qed.

Lemma narrower_mask (m : Z) :
  Z.land m (Z.lor S_IRWXG S_IRWXO) = 0 ->
  Z.land m (Z.lor S_IWGRP (Z.lor S_IXGRP S_IRWXO)) = 0.
Proof.
  intros H. rewrite <- group_read_only, H. reflexivity.
Qed.

(** The permission test of the code is the negation of [access_private]
    whenever the owner is trusted. *)
Lemma permission_test (buf : struct_stat) (uid : Z) :
  ((st_uid buf =? uid) &&
     truthy (Z.land (st_mode buf) (Z.lor S_IRWXG S_IRWXO))) ||
  ((st_uid buf =? 0) &&
     truthy (Z.land (st_mode buf) (Z.lor S_IWGRP (Z.lor S_IXGRP S_IRWXO))))
  = negb (access_private buf uid).
Proof.
  unfold access_private, truthy.
  rewrite group_read_only.
  destruct (st_uid buf =? uid), (st_uid buf =? 0); cbn [andb orb negb]; try reflexivity.
  - destruct (Z.eqb_spec (Z.land (st_mode buf) (Z.lor S_IRWXG S_IRWXO)) 0) as [E|E].
    + rewrite (narrower_mask _ E). reflexivity.
    + reflexivity.
  - now rewrite orb_false_r.
Qed.

(** The function is the first failure among the ordered checks, shown to the
    caller as [verdict] says. *)
Lemma check_ssl_key_file_permissions_verdict (path : string) (strict : bool) (w : World) :
  check_ssl_key_file_permissions path strict w
  = verdict strict path w (validate_by posix_checks path w).
Proof.
  cbv [check_ssl_key_file_permissions bind stat ret get geteuid ereport emit
       exit_with validate_by verdict report_of diagnostic posix_checks first_failure].
  destruct (fs w path) as [e|buf]; cbv beta iota zeta.
  - change (negb (-1 =? 0)) with true. cbv iota.
    destruct strict; reflexivity.
  - change (negb (0 =? 0)) with false. cbv iota.
    destruct (S_ISREG (st_mode buf)); cbn [negb]; cbv iota;
      [|destruct strict; reflexivity].
    unfold owner_trusted.
    destruct WIN32, CYGWIN; cbn [negb andb orb]; try reflexivity.
    pose proof (permission_test buf (euid w)) as PT.
    destruct (st_uid buf =? euid w) eqn:E1, (st_uid buf =? 0) eqn:E2;
      cbn [negb andb orb] in PT |- *; cbv beta iota; rewrite ?E1;
      cbn [negb andb orb]; try (destruct strict; reflexivity);
      rewrite PT;
      destruct (access_private buf (euid w)); cbn [negb]; destruct strict; reflexivity.
Qed.








Lemma first_failure_none {V : Type} (checks : list (bool * V)) :
  first_failure checks = None <-> Forall (fun c => fst c = true) checks.
Proof.
  induction checks as [|[b v] rest IH]; cbn.
  - split; auto.
  - destruct b.
    + rewrite IH. split; [intros H; constructor; auto | intros H; now inversion H].
    + split; [discriminate | intros H; inversion H; discriminate].
Qed.

(** What [first_failure] picks: a failing check with only passing checks
    before it. *)
Lemma first_failure_some {V : Type} (checks : list (bool * V)) (v : V) :
  first_failure checks = Some v ->
  exists before after,
    checks = before ++ (false, v) :: after /\
    Forall (fun c => fst c = true) before.
Proof.
  induction checks as [|[b v0] rest IH]; cbn; [discriminate|].
  destruct b.
  - intros H. destruct (IH H) as (before & after & -> & Hb).
    exists ((true, v0) :: before), after. split; [reflexivity|].
    constructor; auto.
  - intros [= ->]. exists [], rest. split; [reflexivity | constructor].
Qed.

(** C6, as amended: the function runs its checks in order (the path stats,
    it names a regular file, the owner is the server's effective identity or
    root, the mode grants no disallowed group or other access) and stops at
    the first that fails, reporting that one; on a WIN32 or Cygwin build both
    the ownership and the permission check are left out.  It returns [true]
    exactly when every check that is run passes. *)
Theorem checks_in_order_first_failure (path : string) (strict : bool) (w : World) :
  let out := check_ssl_key_file_permissions path strict w in
  out = verdict strict path w (validate_by posix_checks path w) /\
  (result_of out = Return true <->
   exists buf, fs w path = inr buf /\
               Forall (fun c => fst c = true) (posix_checks w buf)) /\
  (forall buf v, fs w path = inr buf ->
     validate_by posix_checks path w = Some v ->
     exists before after,
       posix_checks w buf = before ++ (false, v) :: after /\
       Forall (fun c => fst c = true) before) /\
  (WIN32 || CYGWIN = false -> posix_checks w = spec_checks w).
Proof.
  cbv zeta. rewrite check_ssl_key_file_permissions_verdict.
  split; [reflexivity|]. split; [|split].
  - unfold validate_by. destruct (fs w path) as [e|buf].
    + cbn. split; [destruct strict; discriminate|].
      intros (buf & H & _). discriminate H.
    + destruct (first_failure (posix_checks w buf)) as [v|] eqn:E.
      * split.
        -- cbn. destruct strict, v; discriminate.
        -- intros (buf' & [= <-] & H). apply first_failure_none in H. congruence.
      * split; [|reflexivity]. intros _. exists buf. split; [reflexivity|].
        now apply first_failure_none.
  - unfold validate_by. intros buf v ->. apply first_failure_some.
  - intros H. unfold posix_checks, spec_checks. now rewrite H.
Qed.

Lemma group_other_of_perm_bits (m k : Z) :
  Z.land (octal [7;7;7;7]) k = k -> Z.land m k = Z.land (perm_bits m) k.
Proof.
  intros H. unfold perm_bits. now rewrite <- Z.land_assoc, H.
Qed.

Lemma access_private_by_perm_bits (buf : struct_stat) (uid : Z) :
  access_private buf uid
  = access_private {| st_mode := perm_bits (st_mode buf); st_uid := st_uid buf |} uid.
Proof.
  unfold access_private. cbn [st_mode st_uid].
  now rewrite <- (group_other_of_perm_bits (st_mode buf)) by reflexivity.
Qed.

(** The five scenarios where the ownership and permission checks are compiled
    in. *)
Lemma posix_key_file_scenarios (path : string) (strict : bool) (w : World)
    (buf : struct_stat) :
  WIN32 = false -> CYGWIN = false -> fs w path = inr buf ->
  let out := check_ssl_key_file_permissions path strict w in
  let regular := Z.land (st_mode buf) S_IFMT = S_IFREG in
  let mode := perm_bits (st_mode buf) in
  let rejected code msg detail :=
    let r := {| rep_level := if strict then FATAL else LOG;
                rep_code := code; rep_msg := msg; rep_detail := detail |} in
    out = ([Ev_ereport r], w, if strict then Fatal r else Return false) in
  (regular -> mode = octal [6;0;0] -> st_uid buf = euid w ->
     out = ([], w, Return true)) /\
  (regular -> mode = octal [6;4;4] -> st_uid buf = euid w \/ st_uid buf = 0 ->
     rejected ERRCODE_CONFIG_FILE_ERROR
       ("private key file " ++ quoted path ++ " has group or world access")%string
       (Some detail_group_world)) /\
  (regular -> mode = octal [6;4;0] -> st_uid buf = 0 -> euid w <> 0 ->
     out = ([], w, Return true)) /\
  (regular -> mode = octal [6;4;0] -> st_uid buf = euid w ->
     rejected ERRCODE_CONFIG_FILE_ERROR
       ("private key file " ++ quoted path ++ " has group or world access")%string
       (Some detail_group_world)) /\
  (Z.land (st_mode buf) S_IFMT = S_IFDIR ->
     rejected ERRCODE_CONFIG_FILE_ERROR
       ("private key file " ++ quoted path ++ " is not a regular file")%string
       None).
Proof.
  intros HW HC Hfs. cbv zeta.
  rewrite check_ssl_key_file_permissions_verdict.
  unfold validate_by, posix_checks, owner_trusted, S_ISREG. rewrite Hfs, HW, HC.
  cbn [orb first_failure]. rewrite access_private_by_perm_bits.
  assert (settle : forall (m o : Z) (v : option violation),
            (if (o =? euid w) || (o =? 0)
             then if access_private {| st_mode := m; st_uid := o |} (euid w)
                  then None else Some GroupWorldAccess
             else Some BadOwner) = v ->
            forall out, out = verdict strict path w v ->
            verdict strict path w
              (if (o =? euid w) || (o =? 0)
               then if access_private {| st_mode := m; st_uid := o |} (euid w)
                    then None else Some GroupWorldAccess
               else Some BadOwner) = out)
    by (intros m o v -> out ->; reflexivity).
  split; [|split; [|split; [|split]]].
  - intros -> -> E. rewrite E. apply (settle _ _ None); [|reflexivity].
    unfold access_private; cbn [st_mode st_uid]. now rewrite !Z.eqb_refl.
  - intros -> -> [E|E]; rewrite E;
      apply (settle _ _ (Some GroupWorldAccess)); try reflexivity;
      unfold access_private; cbn [st_mode st_uid]; rewrite !Z.eqb_refl.
    + reflexivity.
    + rewrite orb_true_r. destruct (0 =? euid w); reflexivity.
  - intros -> -> E N. rewrite E. apply (settle _ _ None); [|reflexivity].
    unfold access_private; cbn [st_mode st_uid]. rewrite !Z.eqb_refl, orb_true_r.
    destruct (Z.eqb_spec 0 (euid w)) as [E0|_]; [congruence|reflexivity].
  - intros -> -> E. rewrite E.
    apply (settle _ _ (Some GroupWorldAccess)); [|reflexivity].
    unfold access_private; cbn [st_mode st_uid]. now rewrite !Z.eqb_refl.
  - intros ->. reflexivity.
Qed.

(** C2, as amended: for a path that stats, on every build a regular file of
    mode 0600 owned by the server's effective identity is accepted, and a
    directory is rejected with the not-a-regular-file diagnostic.  Mode 0640
    owned by root is accepted, on a WIN32 or Cygwin build always and
    elsewhere when the server itself is not root.  Where the ownership and
    permission checks are compiled in (neither WIN32 nor Cygwin), mode 0644,
    owned by the server or by root, and mode 0640 owned by the server are
    rejected with the group-or-world-access diagnostic.  A rejection is one
    report and [false] returned when [isServerStart] is false; when it is
    true the same report is made at FATAL and the function does not
    return. *)
Theorem key_file_scenarios (path : string) (strict : bool) (w : World)
    (buf : struct_stat) :
  fs w path = inr buf ->
  let out := check_ssl_key_file_permissions path strict w in
  let regular := Z.land (st_mode buf) S_IFMT = S_IFREG in
  let mode := perm_bits (st_mode buf) in
  let rejected code msg detail :=
    let r := {| rep_level := if strict then FATAL else LOG;
                rep_code := code; rep_msg := msg; rep_detail := detail |} in
    out = ([Ev_ereport r], w, if strict then Fatal r else Return false) in
  (regular -> mode = octal [6;0;0] -> st_uid buf = euid w ->
     out = ([], w, Return true)) /\
  (WIN32 = false -> CYGWIN = false ->
   regular -> mode = octal [6;4;4] -> st_uid buf = euid w \/ st_uid buf = 0 ->
     rejected ERRCODE_CONFIG_FILE_ERROR
       ("private key file " ++ quoted path ++ " has group or world access")%string
       (Some detail_group_world)) /\
  (WIN32 || CYGWIN = true \/ euid w <> 0 ->
   regular -> mode = octal [6;4;0] -> st_uid buf = 0 ->
     out = ([], w, Return true)) /\
  (WIN32 = false -> CYGWIN = false ->
   regular -> mode = octal [6;4;0] -> st_uid buf = euid w ->
     rejected ERRCODE_CONFIG_FILE_ERROR
       ("private key file " ++ quoted path ++ " has group or world access")%string
       (Some detail_group_world)) /\
  (Z.land (st_mode buf) S_IFMT = S_IFDIR ->
     rejected ERRCODE_CONFIG_FILE_ERROR
       ("private key file " ++ quoted path ++ " is not a regular file")%string
       None).
Proof.
  intros Hfs. cbv zeta.
  assert (Hwin : WIN32 || CYGWIN = true ->
                 Z.land (st_mode buf) S_IFMT = S_IFREG ->
                 check_ssl_key_file_permissions path strict w = ([], w, Return true)).
  { intros Hw Hreg. rewrite check_ssl_key_file_permissions_verdict.
    unfold validate_by, posix_checks, S_ISREG. now rewrite Hfs, Hreg, Hw. }
  assert (Hdir : Z.land (st_mode buf) S_IFMT = S_IFDIR ->
                 check_ssl_key_file_permissions path strict w
                 = verdict strict path w (Some NotRegular)).
  { intros Hd. rewrite check_ssl_key_file_permissions_verdict.
    unfold validate_by, posix_checks, S_ISREG. now rewrite Hfs, Hd. }
  destruct WIN32 eqn:HW, CYGWIN eqn:HC; cbn [orb] in Hwin;
    try (split; [|split; [|split; [|split]]];
         [ intros Hreg _ _; now apply Hwin
         | discriminate || (intros _; discriminate)
         | intros _ Hreg _ _; now apply Hwin
         | discriminate || (intros _; discriminate)
         | exact Hdir ]).
  destruct (posix_key_file_scenarios path strict w buf HW HC Hfs)
    as (S1 & S2 & S3 & S4 & S5).
  split; [exact S1|]. split; [intros _ _; exact S2|].
  split; [|split; [intros _ _; exact S4 | exact S5]].
  intros [Hw|Hn]; [discriminate Hw|]. intros Hreg Hm Hu. now apply S3.
Qed.

End KeyFileGuard.

(** The five scenarios on a Linux build, server identity 70. *)
Lemma key_file_scenarios_witness :
  let run mode owner :=
    @check_ssl_key_file_permissions linux_build "/tmp/key.pem" false
       (key_world 70 mode owner) in
  result_of (run (Z.lor S_IFREG (octal [6;0;0])) 70) = Return true /\
  result_of (run (Z.lor S_IFREG (octal [6;4;4])) 70) = Return false /\
  result_of (run (Z.lor S_IFREG (octal [6;4;0])) 0) = Return true /\
  result_of (run (Z.lor S_IFREG (octal [6;4;0])) 70) = Return false /\
  result_of (run (Z.lor S_IFDIR (octal [7;5;5])) 70) = Return false.
Proof.
  cbv zeta.
  pose proof (fun mode owner =>
    @key_file_scenarios linux_build "/tmp/key.pem" false (key_world 70 mode owner)
       {| st_mode := mode; st_uid := owner |} eq_refl) as K.
  cbv zeta in K.
  refine (conj _ (conj _ (conj _ (conj _ _)))).
  - destruct (K (Z.lor S_IFREG (octal [6;0;0])) 70) as (H & _).
    rewrite H by reflexivity. reflexivity.
  - destruct (K (Z.lor S_IFREG (octal [6;4;4])) 70) as (_ & H & _).
    rewrite H by (try (now left); reflexivity). reflexivity.
  - destruct (K (Z.lor S_IFREG (octal [6;4;0])) 0) as (_ & _ & H & _).
    rewrite H by (try (right; discriminate); reflexivity). reflexivity.
  - destruct (K (Z.lor S_IFREG (octal [6;4;0])) 70) as (_ & _ & _ & H & _).
    rewrite H by reflexivity. reflexivity.
  - destruct (K (Z.lor S_IFDIR (octal [7;5;5])) 70) as (_ & _ & _ & _ & H).
    rewrite H by reflexivity. reflexivity.
Defined.

(** C2, as claimed, has every rejection return [false].  At server start
    ([isServerStart] true) on a Linux build, a server-owned key file of mode
    0644 is reported at FATAL and nothing is returned; on a WIN32 build the
    same file is accepted; and for a server running as root a root-owned file
    of mode 0640 is rejected. *)
Lemma key_file_scenarios_counterexample :
  ~ (forall (P : Platform) (path : string) (strict : bool) (w : World)
            (buf : struct_stat),
       fs w path = inr buf -> scenarios_as_specified path strict w buf) /\
  result_of (@check_ssl_key_file_permissions linux_build "/tmp/key.pem" true
               (key_world 70 (Z.lor S_IFREG (octal [6;4;4])) 70))
  = Fatal (@report_of linux_build true "/tmp/key.pem" GroupWorldAccess) /\
  result_of (@check_ssl_key_file_permissions windows_build "/tmp/key.pem" false
               (key_world 70 (Z.lor S_IFREG (octal [6;4;4])) 70))
  = Return true /\
  result_of (@check_ssl_key_file_permissions linux_build "/tmp/key.pem" false
               (key_world 0 (Z.lor S_IFREG (octal [6;4;0])) 0))
  = Return false.
Proof.
  split; [|repeat split].
  intros H.
  specialize (H linux_build "/tmp/key.pem"%string true
                (key_world 70 (Z.lor S_IFREG (octal [6;4;4])) 70)
                {| st_mode := Z.lor S_IFREG (octal [6;4;4]); st_uid := 70 |} eq_refl).
  destruct H as (_ & H & _).
  destruct H as [H _]; [reflexivity | reflexivity | now left |].
  vm_compute in H. discriminate H.
Qed.

(** C6, as claimed, exempts only the ownership check where ownership means
    nothing.  On a WIN32 build a regular file of mode 0666 passes, although
    the specification's third check rejects it. *)
Lemma checks_in_order_counterexample :
  ~ (forall (P : Platform) (path : string) (strict : bool) (w : World),
       check_ssl_key_file_permissions path strict w
       = verdict strict path w (validate_by spec_checks path w)).
Proof.
  intros H.
  specialize (H windows_build "/tmp/key.pem"%string false
                (key_world 70 (Z.lor S_IFREG (octal [6;6;6])) 70)).
  vm_compute in H. discriminate H.
Qed.

(** ** Traces *)

Lemma each_followed_split (Q : event -> list event -> Prop) (t : list event) :
  each_followed Q t ->
  forall pre e post, t = pre ++ e :: post -> Q e post.
Proof.
  intros H pre. revert t H.
  induction pre as [|x pre IH]; intros t H e post ->; cbn in H.
  - apply H.
  - destruct H as [_ H]. exact (IH _ H e post eq_refl).
Qed.

Lemma each_followed_app (Q : event -> list event -> Prop) (t1 t2 : list event) :
  each_followed (fun e rest => Q e (rest ++ t2)) t1 ->
  each_followed Q t2 ->
  each_followed Q (t1 ++ t2).
Proof.
  intros H1 H2. induction t1 as [|x t1 IH]; cbn in *; [exact H2|].
  destruct H1 as [Hx H1]. split; auto.
Qed.

Lemma count_app (f : event -> bool) (t1 t2 : list event) :
  count f (t1 ++ t2) = (count f t1 + count f t2)%nat.
Proof. unfold count. now rewrite filter_app, length_app. Qed.

Lemma count_cons (f : event -> bool) (e : event) (t : list event) :
  count f (e :: t) = ((if f e then 1 else 0) + count f t)%nat.
Proof. unfold count. cbn. now destruct (f e). Qed.

Lemma count_nil (f : event -> bool) : count f [] = O.
Proof. reflexivity. Qed.

(** ** The dispatch loops *)

Section Dispatcher.
Context {P : Platform}.

Ltac run_monad :=
  cbv [bind be_tls_read be_tls_write secure_raw_read secure_raw_write recv send
       transport_call ret get when modify Assert ModifyWaitEvent WaitEventSetWait
       ereport emit exit_with ResetLatch ProcessClientReadInterrupt
       ProcessClientWriteInterrupt process_interrupt];
  cbv beta iota zeta.

Ltac world_fields :=
  cbn [errno pgwin32_noblock globals fs euid transport waits interrupts n_io n_wait
       n_intr set_errno set_pgwin32_noblock next_io next_wait next_intr
       andb orb negb app].

Ltac split_round :=
  repeat match goal with
         | |- context [if ?c then _ else _] =>
             lazymatch c with
             | context [if _ then _ else _] => fail
             | _ => destruct c eqn:?; world_fields; cbv beta iota zeta
             end
         | |- context [match io_waitfor ?r with _ => _ end] =>
             destruct (io_waitfor r) eqn:?; cbv beta iota zeta
         end.

Ltac unfold_round :=
  cbv [round must_wait after_io waitfor_of encrypted wait_events io_event
       postmaster_died latch_set nominal_direction interrupt_event wait_info
       postmaster_report].

(** [secure_read] is the iteration of reading rounds. *)
Lemma secure_read_rounds (fuel : nat) (port : Port) (ptr len : Z) (w : World) :
  secure_read fuel port ptr len w = rounds Reading port ptr len fuel w.
Proof.
  revert w; induction fuel as [|fuel IH]; intros w; [reflexivity|].
  cbn [secure_read rounds]. unfold_round. run_monad. world_fields.
  destruct USE_SSL, (ssl_in_use port), WIN32; world_fields; cbv beta iota zeta.
  all: split_round.
  all: try reflexivity.
  all: rewrite IH;
    match goal with |- context [rounds ?d ?p ?b ?l ?f ?w'] =>
      destruct (rounds d p b l f w') as [[t2 w2] r2] end; reflexivity.
Qed.

(** [secure_write] is the iteration of writing rounds. *)
Lemma secure_write_rounds (fuel : nat) (port : Port) (ptr len : Z) (w : World) :
  secure_write fuel port ptr len w = rounds Writing port ptr len fuel w.
Proof.
  revert w; induction fuel as [|fuel IH]; intros w; [reflexivity|].
  cbn [secure_write rounds]. unfold_round. run_monad. world_fields.
  destruct USE_SSL, (ssl_in_use port), WIN32; world_fields; cbv beta iota zeta.
  all: split_round.
  all: try reflexivity.
  all: rewrite IH;
    match goal with |- context [rounds ?d ?p ?b ?l ?f ?w'] =>
      destruct (rounds d p b l f w') as [[t2 w2] r2] end; reflexivity.
Qed.

Lemma secure_io_rounds (d : direction) (fuel : nat) (port : Port) (ptr len : Z)
    (w : World) :
  secure_io d fuel port ptr len w = rounds d port ptr len fuel w.
Proof.
  destruct d; [apply secure_read_rounds | apply secure_write_rounds].
Qed.

Section OneDirection.
Variables (d : direction) (port : Port) (ptr len : Z).

Local Abbreviation round' := (round d port ptr len).
Local Abbreviation rounds' := (rounds d port ptr len).
Local Abbreviation io' := (io_event d port ptr len).
Local Abbreviation waitfor' := (waitfor_of d port).

Lemma must_wait_spec (n e : Z) :
  must_wait port n e = would_block n e && negb (noblock port).
Proof.
  unfold must_wait, would_block.
  destruct (n <? 0), (noblock port), ((e =? EWOULDBLOCK) || (e =? EAGAIN)); reflexivity.
Qed.

(** The collaborators' scripts are read, never written. *)
Lemma after_io_scripts (w : World) (r : io_result) :
  transport (after_io port w r) = transport w /\
  waits (after_io port w r) = waits w /\
  interrupts (after_io port w r) = interrupts w /\
  n_io (after_io port w r) = S (n_io w) /\
  n_wait (after_io port w r) = n_wait w /\
  n_intr (after_io port w r) = n_intr w /\
  errno (after_io port w r) = io_errno r.
Proof.
  unfold after_io. destruct (negb (encrypted port) && WIN32); repeat split.
Qed.

(** The ways a round ends the call. *)
Lemma round_stop (w : World) (t : list event) (w1 : World) (res : result Z) :
  round' w = (t, w1, Stop res) ->
  let r := transport w (n_io w) in
  (must_wait port (io_n r) (io_errno r) = false /\
   t = [io' r; interrupt_event d false] /\
   res = (if interrupts w (n_intr w) then Return (io_n r) else Interrupted) /\
   errno w1 = io_errno r) \/
  (must_wait port (io_n r) (io_errno r) = true /\
   USE_ASSERT_CHECKING = true /\ waitfor' r = 0 /\
   t = [io' r; Ev_TrapAssert] /\ res = Trap) \/
  (must_wait port (io_n r) (io_errno r) = true /\
   USE_ASSERT_CHECKING && negb (truthy (waitfor' r)) = false /\
   exists occurred,
     occurred = waits w (n_wait w) /\
     ((postmaster_died occurred = true /\
       t = wait_events d port ptr len r occurred ++ [Ev_ereport postmaster_report] /\
       res = Fatal postmaster_report) \/
      (postmaster_died occurred = false /\ latch_set occurred = true /\
       interrupts w (n_intr w) = false /\
       t = wait_events d port ptr len r occurred
           ++ [Ev_ResetLatch MyLatch; interrupt_event d true] /\
       res = Interrupted))).
Proof.
  unfold round. cbv zeta.
  destruct (must_wait port _ _) eqn:Hw.
  - destruct (USE_ASSERT_CHECKING && _) eqn:Ha.
    + intros [= <- <- <-]. right; left.
      apply andb_prop in Ha as [-> Hz]. unfold truthy in Hz.
      rewrite negb_involutive in Hz. apply Z.eqb_eq in Hz. auto.
    + destruct (postmaster_died _) eqn:Hd.
      * intros [= <- <- <-]. right; right. repeat split; auto.
        eexists; split; [reflexivity|]. left; auto.
      * destruct (latch_set _) eqn:Hl.
        -- destruct (interrupts w (n_intr w)) eqn:Hi; [discriminate|].
           intros [= <- <- <-]. right; right. repeat split; auto.
           eexists; split; [reflexivity|]. right; auto.
        -- discriminate.
  - intros [= <- <- <-]. left. repeat split.
    cbn [errno next_intr]. apply after_io_scripts.
Qed.

(** The one way a round goes back to [retry]. *)
Lemma round_retry (w : World) (t : list event) (w1 : World) :
  round' w = (t, w1, Retry) ->
  let r := transport w (n_io w) in
  let occurred := waits w (n_wait w) in
  must_wait port (io_n r) (io_errno r) = true /\
  USE_ASSERT_CHECKING && negb (truthy (waitfor' r)) = false /\
  postmaster_died occurred = false /\
  t = wait_events d port ptr len r occurred
      ++ (if latch_set occurred
          then [Ev_ResetLatch MyLatch; interrupt_event d true] else []) /\
  (latch_set occurred = true -> interrupts w (n_intr w) = true) /\
  transport w1 = transport w /\ waits w1 = waits w /\ interrupts w1 = interrupts w /\
  n_io w1 = S (n_io w) /\ n_wait w1 = S (n_wait w).
Proof.
  unfold round. cbv zeta.
  destruct (must_wait port _ _) eqn:Hw; [|discriminate].
  destruct (USE_ASSERT_CHECKING && _) eqn:Ha; [discriminate|].
  destruct (postmaster_died _) eqn:Hd; [discriminate|].
  pose proof (after_io_scripts w (transport w (n_io w))) as (A & B & C & D & E & F & G).
  destruct (latch_set _) eqn:Hl.
  - destruct (interrupts w (n_intr w)) eqn:Hi; [|discriminate].
    intros [= <- <-]. rewrite app_nil_r || idtac.
    cbn [transport waits interrupts n_io n_wait next_intr next_wait].
    repeat split; auto.
  - intros [= <- <-]. rewrite app_nil_r.
    cbn [transport waits interrupts n_io n_wait next_intr next_wait].
    repeat split; auto. discriminate.
Qed.

(** Induction over the rounds of a call. *)
Lemma rounds_ind (Q : World -> list event -> World -> result Z -> Prop) :
  (forall w, Q w [] w OutOfFuel) ->
  (forall w t w1 res, round' w = (t, w1, Stop res) -> Q w t w1 res) ->
  (forall w t w1 t2 w2 res,
     round' w = (t, w1, Retry) -> Q w1 t2 w2 res -> Q w (t ++ t2) w2 res) ->
  forall fuel w,
    Q w (trace_of (rounds' fuel w)) (world_of (rounds' fuel w))
        (result_of (rounds' fuel w)).
Proof.
  intros H0 Hstop Hretry. induction fuel as [|fuel IH]; intros w.
  - apply H0.
  - cbn [rounds]. destruct (round' w) as [[t w1] [|res]] eqn:E.
    + specialize (IH w1). destruct (rounds' fuel w1) as [[t2 w2] res].
      apply (Hretry _ _ _ _ _ _ E IH).
    + apply (Hstop _ _ _ _ E).
Qed.

(** *** What the events of a round are *)

Lemma io_event_is_io r : is_io (io' r) = true.
Proof. unfold io_event. destruct d, (encrypted port); reflexivity. Qed.
Lemma io_event_answer r : answer_of (io' r) = Some r.
Proof. unfold io_event. destruct d, (encrypted port); reflexivity. Qed.
Lemma io_event_answers_would_block r :
  answers_would_block (io' r) = would_block (io_n r) (io_errno r).
Proof. unfold io_event. destruct d, (encrypted port); reflexivity. Qed.
Lemma io_event_not_wait r : is_WaitEventSetWait (io' r) = false.
Proof. unfold io_event. destruct d, (encrypted port); reflexivity. Qed.
Lemma io_event_not_interrupt b r : is_interrupt b (io' r) = false.
Proof. unfold io_event. destruct d, (encrypted port); reflexivity. Qed.
Lemma io_event_not_wake r : wakes (io' r) = false.
Proof. unfold io_event. destruct d, (encrypted port); reflexivity. Qed.
Lemma io_event_occurred r : occurred_of (io' r) = None.
Proof. unfold io_event. destruct d, (encrypted port); reflexivity. Qed.

Lemma interrupt_event_not_io b : is_io (interrupt_event d b) = false.
Proof. destruct d; reflexivity. Qed.
Lemma interrupt_event_answer b : answer_of (interrupt_event d b) = None.
Proof. destruct d; reflexivity. Qed.
Lemma interrupt_event_not_would_block b :
  answers_would_block (interrupt_event d b) = false.
Proof. destruct d; reflexivity. Qed.
Lemma interrupt_event_not_wait b : is_WaitEventSetWait (interrupt_event d b) = false.
Proof. destruct d; reflexivity. Qed.
Lemma interrupt_event_is_interrupt b b' :
  is_interrupt b' (interrupt_event d b) = Bool.eqb b b'.
Proof. destruct d; reflexivity. Qed.
Lemma interrupt_event_not_wake b : wakes (interrupt_event d b) = false.
Proof. destruct d; reflexivity. Qed.
Lemma interrupt_event_occurred b : occurred_of (interrupt_event d b) = None.
Proof. destruct d; reflexivity. Qed.

End OneDirection.

Create Rewrite HintDb events.
#[local] Hint Rewrite count_app count_cons count_nil
  io_event_is_io io_event_answer io_event_answers_would_block io_event_not_wait
  io_event_not_interrupt io_event_not_wake io_event_occurred
  interrupt_event_not_io interrupt_event_answer interrupt_event_not_would_block
  interrupt_event_not_wait interrupt_event_is_interrupt interrupt_event_not_wake
  interrupt_event_occurred : events.

Ltac walk :=
  cbn [each_followed app];
  repeat match goal with |- _ /\ _ => split end;
  try exact I.

Ltac count_events :=
  unfold wait_events; autorewrite with events;
  cbn [is_io answer_of answers_would_block is_WaitEventSetWait is_interrupt wakes
       occurred_of is_wait Bool.eqb Nat.add].

Section Blocking.
Variables (d : direction) (port : Port) (ptr len : Z).
Hypothesis blocking : noblock port = false.

Local Abbreviation rounds' := (rounds d port ptr len).

Lemma must_wait_blocking (n e : Z) : must_wait port n e = would_block n e.
Proof. rewrite must_wait_spec, blocking. apply andb_true_r. Qed.

Lemma returned_is_not_would_block (fuel : nat) (w : World) (n : Z) :
  result_of (rounds' fuel w) = Return n ->
  would_block n (errno (world_of (rounds' fuel w))) = false.
Proof.
  revert n.
  apply (rounds_ind d port ptr len
           (fun _ _ w2 res => forall n, res = Return n -> would_block n (errno w2) = false)).
  - discriminate.
  - intros w0 t w1 res E n ->.
    apply round_stop in E. cbv zeta in E.
    destruct E as [(Hw & _ & Hres & He)|[(_ & _ & _ & _ & Hres)|(_ & _ & occ & _ & [H|H])]].
    + rewrite must_wait_blocking in Hw.
      destruct (interrupts w0 (n_intr w0)); [|discriminate].
      injection Hres as ->. now rewrite He.
    + discriminate.
    + destruct H as (_ & _ & H); discriminate.
    + destruct H as (_ & _ & _ & _ & H); discriminate.
  - auto.
Qed.

(** One wait per would-block answer, and one more transport call than waits
    when the call returns. *)
Lemma waits_match_would_blocks (fuel : nat) (w : World) :
  let out := rounds' fuel w in
  (result_of out <> Trap ->
   count is_WaitEventSetWait (trace_of out) = count answers_would_block (trace_of out)) /\
  (forall n, result_of out = Return n ->
   count is_io (trace_of out) = S (count is_WaitEventSetWait (trace_of out))).
Proof.
  cbv zeta.
  apply (rounds_ind d port ptr len
           (fun _ t _ res =>
              (res <> Trap ->
               count is_WaitEventSetWait t = count answers_would_block t) /\
              (forall n, res = Return n ->
               count is_io t = S (count is_WaitEventSetWait t)))).
  - split; [reflexivity | discriminate].
  - intros w0 t w1 res E.
    apply round_stop in E. cbv zeta in E.
    destruct E as [(Hw & -> & Hres & He)|[(_ & _ & _ & _ & ->)|(Hw & _ & occ & _ & [H|H])]].
    + rewrite must_wait_blocking in Hw. split.
      * intros _. count_events. now rewrite Hw.
      * intros n _. count_events. reflexivity.
    + split; [congruence | discriminate].
    + destruct H as (_ & -> & ->). rewrite must_wait_blocking in Hw. split.
      * intros _. count_events. now rewrite Hw.
      * discriminate.
    + destruct H as (_ & _ & _ & -> & ->). rewrite must_wait_blocking in Hw. split.
      * intros _. count_events. now rewrite Hw.
      * discriminate.
  - intros w0 t w1 t2 w2 res E [IH1 IH2].
    apply round_retry in E. cbv zeta in E.
    destruct E as (Hw & _ & _ & -> & _).
    rewrite must_wait_blocking in Hw. split.
    + intros H. count_events. rewrite Hw, (IH1 H).
      destruct (latch_set _); count_events; reflexivity.
    + intros n H. count_events. rewrite (IH2 n H).
      destruct (latch_set _); count_events; reflexivity.
Qed.

(** Once the transport stops answering would-block, the call ends. *)
Lemma ends_when_transport_answers (k : nat) :
  forall (w : World) (fuel : nat),
    (let r := transport w (n_io w + k) in would_block (io_n r) (io_errno r) = false) ->
    (k < fuel)%nat ->
    result_of (rounds' fuel w) <> OutOfFuel.
Proof.
  cbv zeta.
  induction k as [|k IH]; intros w fuel Hk Hf;
    (destruct fuel as [|fuel]; [lia|]); cbn [rounds];
    destruct (round d port ptr len w) as [[t w1] [|res]] eqn:E.
  - apply round_retry in E. cbv zeta in E. destruct E as (Hw & _).
    rewrite must_wait_blocking, Nat.add_0_r in *. congruence.
  - apply round_stop in E. cbv zeta in E. cbn.
    destruct E as [(_ & _ & -> & _)|[(_ & _ & _ & _ & ->)|(_ & _ & occ & _ & [H|H])]].
    + destruct (interrupts _ _); discriminate.
    + discriminate.
    + destruct H as (_ & _ & ->); discriminate.
    + destruct H as (_ & _ & _ & _ & ->); discriminate.
  - apply round_retry in E. cbv zeta in E.
    destruct E as (_ & _ & _ & _ & _ & Ht & _ & _ & Hn & _).
    specialize (IH w1 fuel). rewrite Ht, Hn in IH.
    replace (S (n_io w) + k)%nat with (n_io w + S k)%nat in IH by lia.
    specialize (IH Hk ltac:(lia)).
    destruct (rounds' fuel w1) as [[t2 w2] res]. exact IH.
  - apply round_stop in E. cbv zeta in E. cbn.
    destruct E as [(_ & _ & -> & _)|[(_ & _ & _ & _ & ->)|(_ & _ & occ & _ & [H|H])]].
    + destruct (interrupts _ _); discriminate.
    + discriminate.
    + destruct H as (_ & _ & ->); discriminate.
    + destruct H as (_ & _ & _ & _ & ->); discriminate.
Qed.

End Blocking.

Section AnyMode.
Variables (d : direction) (port : Port) (ptr len : Z).

Local Abbreviation rounds' := (rounds d port ptr len).
Local Abbreviation io' := (io_event d port ptr len).

Lemma rounds_open_with_io (fuel : nat) (w : World) :
  opens_with_io (trace_of (rounds' fuel w)) (result_of (rounds' fuel w)).
Proof.
  destruct fuel as [|fuel]; [reflexivity|]. cbn [rounds].
  destruct (round d port ptr len w) as [[t w1] [|res]] eqn:E.
  - apply round_retry in E. cbv zeta in E. destruct E as (_ & _ & _ & -> & _).
    destruct (rounds' fuel w1) as [[t2 w2] res]. cbn. apply io_event_is_io.
  - apply round_stop in E. cbv zeta in E. cbn.
    destruct E as [(_ & -> & _)|[(_ & _ & _ & -> & _)|(_ & _ & occ & _ & [H|H])]].
    + apply io_event_is_io.
    + apply io_event_is_io.
    + destruct H as (_ & -> & _). apply io_event_is_io.
    + destruct H as (_ & _ & _ & -> & _). apply io_event_is_io.
Qed.

(** Induction over the rounds that also knows how the rest of the trace
    opens. *)
Lemma rounds_ind_open (Q : list event -> result Z -> Prop) :
  Q [] OutOfFuel ->
  (forall w t w1 res, round d port ptr len w = (t, w1, Stop res) -> Q t res) ->
  (forall w t w1 t2 res,
     round d port ptr len w = (t, w1, Retry) ->
     opens_with_io t2 res -> Q t2 res -> Q (t ++ t2) res) ->
  forall fuel w, Q (trace_of (rounds' fuel w)) (result_of (rounds' fuel w)).
Proof.
  intros H0 Hstop Hretry. induction fuel as [|fuel IH]; intros w.
  - apply H0.
  - cbn [rounds]. destruct (round d port ptr len w) as [[t w1] [|res]] eqn:E.
    + specialize (IH w1). pose proof (rounds_open_with_io fuel w1) as Ho.
      destruct (rounds' fuel w1) as [[t2 w2] res].
      apply (Hretry _ _ _ _ _ E Ho IH).
    + apply (Hstop _ _ _ _ E).
Qed.

(** After a wait that reports the postmaster's death comes the FATAL report
    and nothing else. *)
Lemma death_ends_the_process (fuel : nat) (w : World) :
  each_followed
    (fun e rest => forall occurred,
       occurred_of e = Some occurred -> postmaster_died occurred = true ->
       rest = [Ev_ereport postmaster_report] /\
       result_of (rounds' fuel w) = Fatal postmaster_report)
    (trace_of (rounds' fuel w)).
Proof.
  apply (rounds_ind_open
           (fun t res => each_followed
              (fun e rest => forall occurred,
                 occurred_of e = Some occurred -> postmaster_died occurred = true ->
                 rest = [Ev_ereport postmaster_report] /\ res = Fatal postmaster_report) t)).
  - exact I.
  - intros w0 t w1 res E. apply round_stop in E. cbv zeta in E.
    destruct E as [(_ & -> & _)|[(_ & _ & _ & -> & _)|(_ & _ & occ & -> & [H|H])]].
    + walk; intros o Ho; autorewrite with events in Ho; discriminate.
    + walk; intros o Ho; autorewrite with events in Ho; discriminate.
    + destruct H as (Hd & -> & ->).
      unfold wait_events; walk; intros o Ho Hdo;
        autorewrite with events in Ho; try discriminate.
      split; reflexivity.
    + destruct H as (Hd & _ & _ & -> & ->).
      unfold wait_events; walk; intros o Ho Hdo;
        autorewrite with events in Ho; try discriminate.
      injection Ho as <-. congruence.
  - intros w0 t w1 t2 res E _ IH. apply round_retry in E. cbv zeta in E.
    destruct E as (_ & _ & Hd & -> & _).
    apply each_followed_app; [|exact IH].
    destruct (latch_set _); unfold wait_events; walk; intros o Ho Hdo;
      autorewrite with events in Ho; try discriminate;
      injection Ho as <-; congruence.
Qed.

(** Every registration with the wait set comes right after a transport call
    that must wait, and registers the [waitfor] of that call. *)
Lemma registration_follows_attempt (fuel : nat) (w : World) :
  each_followed
    (fun e rest =>
       match rest with
       | Ev_ModifyWaitEvent set pos events :: _ =>
           exists r, e = io' r /\ set = FeBeWaitSet /\ pos = 0 /\
                     events = waitfor_of d port r /\
                     must_wait port (io_n r) (io_errno r) = true
       | _ => True
       end)
    (trace_of (rounds' fuel w)).
Proof.
  apply (rounds_ind_open
           (fun t _ => each_followed
              (fun e rest =>
                 match rest with
                 | Ev_ModifyWaitEvent set pos events :: _ =>
                     exists r, e = io' r /\ set = FeBeWaitSet /\ pos = 0 /\
                               events = waitfor_of d port r /\
                               must_wait port (io_n r) (io_errno r) = true
                 | _ => True
                 end) t)).
  - exact I.
  - intros w0 t w1 res E. apply round_stop in E. cbv zeta in E.
    destruct E as [(_ & -> & _)|[(_ & _ & _ & -> & _)|(Hw & _ & occ & _ & [H|H])]].
    + walk. destruct d; exact I.
    + walk.
    + destruct H as (_ & -> & _). unfold wait_events. walk.
      eexists; split; [reflexivity|]; repeat split; assumption.
    + destruct H as (_ & _ & _ & -> & _). unfold wait_events. walk.
      * eexists; split; [reflexivity|]; repeat split; assumption.
      * destruct d; exact I.
  - intros w0 t w1 t2 res E Ho IH. apply round_retry in E. cbv zeta in E.
    destruct E as (Hw & _ & _ & -> & _).
    apply each_followed_app; [|exact IH].
    assert (Hlast : match t2 with
                    | Ev_ModifyWaitEvent _ _ _ :: _ => False
                    | _ => True
                    end).
    { destruct t2 as [|[] t2]; cbn in Ho; try exact I; discriminate. }
    destruct (latch_set _); unfold wait_events; walk;
      try (eexists; split; [reflexivity|]; repeat split; assumption);
      try (destruct d; cbn);
      destruct t2 as [|[] ?]; try exact I; contradiction.
Qed.

(** Every transport call of one run is the same call. *)
Lemma attempts_identical (fuel : nat) (w : World) :
  Forall (fun e => is_io e = true -> exists r, e = io' r) (trace_of (rounds' fuel w)).
Proof.
  apply (rounds_ind_open
           (fun t _ => Forall (fun e => is_io e = true -> exists r, e = io' r) t)).
  - constructor.
  - intros w0 t w1 res E. apply round_stop in E. cbv zeta in E.
    destruct E as [(_ & -> & _)|[(_ & _ & _ & -> & _)|(_ & _ & occ & _ & [H|H])]].
    + repeat constructor; eauto. now rewrite interrupt_event_not_io.
    + repeat constructor; eauto; discriminate.
    + destruct H as (_ & -> & _). repeat constructor; eauto; discriminate.
    + destruct H as (_ & _ & _ & -> & _).
      repeat constructor; eauto; try discriminate.
      now rewrite interrupt_event_not_io.
  - intros w0 t w1 t2 res E _ IH. apply round_retry in E. cbv zeta in E.
    destruct E as (_ & _ & _ & -> & _).
    apply Forall_app. split; [|exact IH].
    destruct (latch_set _); repeat constructor; eauto; try discriminate.
    now rewrite interrupt_event_not_io.
Qed.

Lemma must_wait_negative (n e : Z) : must_wait port n e = true -> n < 0.
Proof.
  unfold must_wait. intros H.
  apply andb_prop in H as [H _]. apply andb_prop in H as [H _].
  now apply Z.ltb_lt.
Qed.

Lemma must_wait_would_block (n e : Z) :
  must_wait port n e = true -> would_block n e = true /\ noblock port = false.
Proof.
  rewrite must_wait_spec. intros H. apply andb_prop in H as [H1 H2].
  split; [exact H1|]. now destruct (noblock port).
Qed.

(** A transport call that transferred something (or nothing: a count of 0) is
    followed by the closing interrupt check alone; a transport call that is
    followed by another one answered would-block, on a blocking port. *)
Lemma partial_transfer_is_final (fuel : nat) (w : World) :
  each_followed
    (fun e rest => forall r, answer_of e = Some r ->
       (0 <= io_n r ->
        rest = [interrupt_event d false] /\
        (result_of (rounds' fuel w) = Return (io_n r) \/
         result_of (rounds' fuel w) = Interrupted)) /\
       (existsb is_io rest = true ->
        would_block (io_n r) (io_errno r) = true /\ noblock port = false))
    (trace_of (rounds' fuel w)).
Proof.
  apply (rounds_ind_open
           (fun t res => each_followed
              (fun e rest => forall r, answer_of e = Some r ->
                 (0 <= io_n r ->
                  rest = [interrupt_event d false] /\
                  (res = Return (io_n r) \/ res = Interrupted)) /\
                 (existsb is_io rest = true ->
                  would_block (io_n r) (io_errno r) = true /\ noblock port = false)) t)).
  - exact I.
  - intros w0 t w1 res E. apply round_stop in E. cbv zeta in E.
    destruct E as [(_ & -> & -> & _)|[(Hw & _ & _ & -> & _)|(Hw & _ & occ & _ & [H|H])]].
    + walk; intros r Hr; autorewrite with events in Hr; try discriminate.
      injection Hr as <-. split.
      * intros _. split; [reflexivity|]. destruct (interrupts _ _); auto.
      * cbn. rewrite interrupt_event_not_io. discriminate.
    + walk; intros r Hr; autorewrite with events in Hr; try discriminate.
      injection Hr as <-. apply must_wait_negative in Hw. split; [lia|discriminate].
    + destruct H as (_ & -> & _).
      unfold wait_events; walk; intros r Hr; autorewrite with events in Hr;
        try discriminate.
      injection Hr as <-. apply must_wait_negative in Hw. split; [lia|discriminate].
    + destruct H as (_ & _ & _ & -> & _).
      unfold wait_events; walk; intros r Hr; autorewrite with events in Hr;
        try discriminate.
      injection Hr as <-. apply must_wait_negative in Hw. split; [lia|].
      cbn. rewrite interrupt_event_not_io. discriminate.
  - intros w0 t w1 t2 res E _ IH. apply round_retry in E. cbv zeta in E.
    destruct E as (Hw & _ & _ & -> & _).
    apply each_followed_app; [|exact IH].
    destruct (latch_set _); unfold wait_events; walk; intros r Hr;
      autorewrite with events in Hr; try discriminate;
      injection Hr as <-;
      (split; [pose proof (must_wait_negative _ _ Hw); lia
              | intros _; now apply must_wait_would_block]).
Qed.

(** Blocking-aware interrupt processing runs once per wake. *)
Lemma one_interrupt_check_per_wake (fuel : nat) (w : World) :
  count (is_interrupt true) (trace_of (rounds' fuel w))
  = count wakes (trace_of (rounds' fuel w)).
Proof.
  apply (rounds_ind_open
           (fun t _ => count (is_interrupt true) t = count wakes t)).
  - reflexivity.
  - intros w0 t w1 res E. apply round_stop in E. cbv zeta in E.
    destruct E as [(_ & -> & _)|[(_ & _ & _ & -> & _)|(_ & _ & occ & _ & [H|H])]].
    + count_events. reflexivity.
    + count_events. reflexivity.
    + destruct H as (Hd & -> & _). count_events. rewrite Hd, andb_false_r. reflexivity.
    + destruct H as (Hd & Hl & _ & -> & _). count_events. rewrite Hd, Hl. reflexivity.
  - intros w0 t w1 t2 res E _ IH. apply round_retry in E. cbv zeta in E.
    destruct E as (_ & _ & Hd & -> & _).
    count_events. rewrite IH, Hd.
    destruct (latch_set _); count_events; reflexivity.
Qed.

(** A wake is followed by the latch reset, the blocking-aware interrupt
    check and, unless that check raised or the fuel ran out, the next
    transport call. *)
Lemma wake_resets_and_retries (fuel : nat) (w : World) :
  each_followed
    (fun e rest => wakes e = true ->
       exists rest',
         rest = Ev_ResetLatch MyLatch :: interrupt_event d true :: rest' /\
         match rest' with
         | [] => result_of (rounds' fuel w) = Interrupted \/
                 result_of (rounds' fuel w) = OutOfFuel
         | e' :: _ => is_io e' = true
         end)
    (trace_of (rounds' fuel w)).
Proof.
  apply (rounds_ind_open
           (fun t res => each_followed
              (fun e rest => wakes e = true ->
                 exists rest',
                   rest = Ev_ResetLatch MyLatch :: interrupt_event d true :: rest' /\
                   match rest' with
                   | [] => res = Interrupted \/ res = OutOfFuel
                   | e' :: _ => is_io e' = true
                   end) t)).
  - exact I.
  - intros w0 t w1 res E. apply round_stop in E. cbv zeta in E.
    destruct E as [(_ & -> & _)|[(_ & _ & _ & -> & _)|(_ & _ & occ & _ & [H|H])]].
    + walk; intros Hk; autorewrite with events in Hk; discriminate.
    + walk; intros Hk; autorewrite with events in Hk; discriminate.
    + destruct H as (Hd & -> & _).
      unfold wait_events; walk; intros Hk; autorewrite with events in Hk;
        try discriminate.
      cbn in Hk. rewrite Hd, andb_false_r in Hk. discriminate.
    + destruct H as (Hd & Hl & _ & -> & ->).
      unfold wait_events; walk; intros Hk; autorewrite with events in Hk;
        try discriminate.
      exists []. split; [reflexivity|]. now left.
  - intros w0 t w1 t2 res E Ho IH. apply round_retry in E. cbv zeta in E.
    destruct E as (_ & _ & Hd & -> & _).
    apply each_followed_app; [|exact IH].
    destruct (latch_set _) eqn:Hl; unfold wait_events; walk; intros Hk;
      autorewrite with events in Hk; try discriminate.
    + exists t2. split; [reflexivity|].
      destruct t2; [right; exact Ho | exact Ho].
    + cbn in Hk. rewrite Hl in Hk. discriminate.
Qed.

(** The loop itself reports one thing only: the death of the postmaster. *)
Lemma fatal_only_on_death (fuel : nat) (w : World) (r : report) :
  result_of (rounds' fuel w) = Fatal r ->
  exists pre occurred,
    trace_of (rounds' fuel w)
    = pre ++ [Ev_WaitEventSetWait FeBeWaitSet (-1) 1 (wait_info d) occurred;
              Ev_ereport r] /\
    r = postmaster_report /\ postmaster_died occurred = true.
Proof.
  apply (rounds_ind_open
           (fun t res => res = Fatal r ->
              exists pre occurred,
                t = pre ++ [Ev_WaitEventSetWait FeBeWaitSet (-1) 1 (wait_info d) occurred;
                            Ev_ereport r] /\
                r = postmaster_report /\ postmaster_died occurred = true)).
  - discriminate.
  - intros w0 t w1 res E Hres. apply round_stop in E. cbv zeta in E.
    destruct E as [(_ & _ & -> & _)|[(_ & _ & _ & _ & ->)|(_ & _ & occ & _ & [H|H])]].
    + destruct (interrupts _ _); discriminate.
    + discriminate.
    + destruct H as (Hd & -> & ->). injection Hres as <-.
      eexists [_; _], _. unfold wait_events. cbn. repeat split. exact Hd.
    + destruct H as (_ & _ & _ & _ & ->). discriminate.
  - intros w0 t w1 t2 res E _ IH Hres.
    destruct (IH Hres) as (pre & occ & -> & Hr & Hd).
    exists (t ++ pre), occ. rewrite app_assoc. auto.
Qed.

(** The closing interrupt check runs at most once, and when the call returns
    it ran once and was the last thing done. *)
Lemma closing_interrupt_check (fuel : nat) (w : World) :
  (count (is_interrupt false) (trace_of (rounds' fuel w)) <= 1)%nat /\
  (forall n, result_of (rounds' fuel w) = Return n ->
     count (is_interrupt false) (trace_of (rounds' fuel w)) = 1%nat /\
     exists pre, trace_of (rounds' fuel w) = pre ++ [interrupt_event d false]).
Proof.
  apply (rounds_ind_open
           (fun t res =>
              (count (is_interrupt false) t <= 1)%nat /\
              (forall n, res = Return n ->
                 count (is_interrupt false) t = 1%nat /\
                 exists pre, t = pre ++ [interrupt_event d false]))).
  - split; [cbn; lia | discriminate].
  - intros w0 t w1 res E. apply round_stop in E. cbv zeta in E.
    destruct E as [(_ & -> & _)|[(_ & _ & _ & -> & ->)|(_ & _ & occ & _ & [H|H])]].
    + count_events. split; [lia|]. intros n _. split; [reflexivity|].
      now eexists [_].
    + count_events. split; [lia | discriminate].
    + destruct H as (_ & -> & ->). count_events. split; [lia | discriminate].
    + destruct H as (_ & _ & _ & -> & ->). count_events. split; [lia | discriminate].
  - intros w0 t w1 t2 res E _ [IH1 IH2]. apply round_retry in E. cbv zeta in E.
    destruct E as (_ & _ & _ & -> & _).
    assert (Hz : count (is_interrupt false)
                   (wait_events d port ptr len (transport w0 (n_io w0)) (waits w0 (n_wait w0))
                    ++ (if latch_set (waits w0 (n_wait w0))
                        then [Ev_ResetLatch MyLatch; interrupt_event d true] else []))
                 = O).
    { destruct (latch_set _); count_events; reflexivity. }
    rewrite count_app, Hz. split; [exact IH1|].
    intros n Hn. destruct (IH2 n Hn) as (Hc & pre & ->).
    split; [exact Hc|]. eexists. rewrite app_assoc. reflexivity.
Qed.

(** On a non-blocking port the first round is the whole call. *)
Lemma nonblocking_single_round (fuel : nat) (w : World) :
  noblock port = true ->
  let r := transport w (n_io w) in
  rounds' (S fuel) w
  = ([io' r; interrupt_event d false], next_intr (after_io port w r),
     if interrupts w (n_intr w) then Return (io_n r) else Interrupted).
Proof.
  intros Hnb. cbv zeta. cbn [rounds]. unfold round. cbv zeta.
  rewrite must_wait_spec, Hnb, andb_false_r. reflexivity.
Qed.

(** With a direction in [waitfor] whenever the loop must wait, the assertion
    holds and every registration names a direction. *)
Lemma waitfor_asserted (fuel : nat) (w : World) :
  nominal_direction d <> 0 ->
  (encrypted port = true ->
   forall k, let r := transport w k in
     would_block (io_n r) (io_errno r) = true ->
     exists x, io_waitfor r = Some x /\ x <> 0) ->
  result_of (rounds' fuel w) <> Trap /\
  Forall (fun e => e <> Ev_TrapAssert /\
                   forall set pos events,
                     e = Ev_ModifyWaitEvent set pos events -> events <> 0)
         (trace_of (rounds' fuel w)).
Proof.
  intros Hnom.
  assert (Hwf : forall w0 : World,
             (encrypted port = true ->
              forall k, let r := transport w0 k in
                would_block (io_n r) (io_errno r) = true ->
                exists x, io_waitfor r = Some x /\ x <> 0) ->
             let r := transport w0 (n_io w0) in
             must_wait port (io_n r) (io_errno r) = true ->
             waitfor_of d port r <> 0).
  { intros w0 Hp r Hw. subst r. apply must_wait_would_block in Hw as [Hw _].
    unfold waitfor_of. destruct (encrypted port) eqn:He; [|exact Hnom].
    destruct (Hp eq_refl (n_io w0) Hw) as (x & Hx & Hx0).
    now rewrite Hx. }
  assert (Hio : forall r, io' r <> Ev_TrapAssert)
    by (intros r; unfold io_event; destruct d, (encrypted port); discriminate).
  assert (Hint : forall b, interrupt_event d b <> Ev_TrapAssert)
    by (intros b; destruct d; discriminate).
  assert (Hiom : forall r set pos events,
             io' r = Ev_ModifyWaitEvent set pos events -> events <> 0)
    by (intros r ? ? ?; unfold io_event; destruct d, (encrypted port); discriminate).
  assert (Hintm : forall b set pos events,
             interrupt_event d b = Ev_ModifyWaitEvent set pos events -> events <> 0)
    by (intros b ? ? ?; destruct d; discriminate).
  apply (rounds_ind d port ptr len
           (fun w0 t _ res =>
              (encrypted port = true ->
               forall k, let r := transport w0 k in
                 would_block (io_n r) (io_errno r) = true ->
                 exists x, io_waitfor r = Some x /\ x <> 0) ->
              res <> Trap /\
              Forall (fun e => e <> Ev_TrapAssert /\
                               forall set pos events,
                                 e = Ev_ModifyWaitEvent set pos events -> events <> 0) t)).
  - intros w0 _. split; [discriminate | constructor].
  - intros w0 t w1 res E Hp. pose proof (Hwf w0 Hp) as Hz. cbv zeta in Hz.
    apply round_stop in E. cbv zeta in E.
    destruct E as [(_ & -> & -> & _)|[(Hw & _ & H0 & _)|(Hw & _ & occ & _ & [H|H])]].
    + split; [destruct (interrupts _ _); discriminate|].
      repeat constructor; eauto.
    + now apply Hz in Hw.
    + destruct H as (_ & -> & ->). split; [discriminate|].
      unfold wait_events. repeat constructor; eauto; try discriminate.
      intros ? ? ? [= _ _ <-]. auto.
    + destruct H as (_ & _ & _ & -> & ->). split; [discriminate|].
      unfold wait_events. repeat constructor; eauto; try discriminate.
      intros ? ? ? [= _ _ <-]. auto.
  - intros w0 t w1 t2 w2 res E IH Hp. pose proof (Hwf w0 Hp) as Hz. cbv zeta in Hz.
    apply round_retry in E. cbv zeta in E.
    destruct E as (Hw & _ & _ & -> & _ & Ht & _).
    rewrite Ht in IH. destruct (IH Hp) as [IH1 IH2].
    split; [exact IH1|]. apply Forall_app. split; [|exact IH2].
    unfold wait_events.
    destruct (latch_set _); repeat constructor; eauto; try discriminate;
      intros ? ? ? [= _ _ <-]; auto.
Qed.

End AnyMode.

(** *** Further properties of the rounds *)

Section Further.
Variables (d : direction) (port : Port) (ptr len : Z).

Local Abbreviation rounds' := (rounds d port ptr len).
Local Abbreviation io' := (io_event d port ptr len).

(** What a round leaves alone, and what it does to [pgwin32_noblock]. *)
Lemma round_frame (w : World) :
  let w1 := snd (fst (round d port ptr len w)) in
  globals w1 = globals w /\ fs w1 = fs w /\ euid w1 = euid w /\
  transport w1 = transport w /\ waits w1 = waits w /\ interrupts w1 = interrupts w /\
  pgwin32_noblock w1
  = (if negb (encrypted port) && WIN32 then false else pgwin32_noblock w).
Proof.
  cbv zeta. unfold round, after_io. cbv zeta.
  destruct (negb (encrypted port) && WIN32);
    destruct (must_wait port _ _);
    [ destruct (USE_ASSERT_CHECKING && _);
      [| destruct (postmaster_died _); [| destruct (latch_set _)]] |
    | destruct (USE_ASSERT_CHECKING && _);
      [| destruct (postmaster_died _); [| destruct (latch_set _)]] | ];
    repeat split.
Qed.

(** A transport answer that does not send the loop into the wait ends the
    call. *)
Lemma no_wait_is_final (fuel : nat) (w : World) :
  each_followed
    (fun e rest => forall r, answer_of e = Some r ->
       must_wait port (io_n r) (io_errno r) = false ->
       rest = [interrupt_event d false] /\
       (result_of (rounds' fuel w) = Return (io_n r) \/
        result_of (rounds' fuel w) = Interrupted))
    (trace_of (rounds' fuel w)).
Proof.
  apply (rounds_ind_open d port ptr len
           (fun t res => each_followed
              (fun e rest => forall r, answer_of e = Some r ->
                 must_wait port (io_n r) (io_errno r) = false ->
                 rest = [interrupt_event d false] /\
                 (res = Return (io_n r) \/ res = Interrupted)) t)).
  - exact I.
  - intros w0 t w1 res E. apply round_stop in E. cbv zeta in E.
    destruct E as [(_ & -> & -> & _)|[(Hw & _ & _ & -> & _)|(Hw & _ & occ & _ & [H|H])]].
    + walk; intros r Hr Hm; autorewrite with events in Hr; try discriminate.
      injection Hr as <-. split; [reflexivity|]. destruct (interrupts _ _); auto.
    + walk; intros r Hr Hm; autorewrite with events in Hr; try discriminate.
      injection Hr as <-. congruence.
    + destruct H as (_ & -> & _).
      unfold wait_events; walk; intros r Hr Hm; autorewrite with events in Hr;
        try discriminate.
      injection Hr as <-. congruence.
    + destruct H as (_ & _ & _ & -> & _).
      unfold wait_events; walk; intros r Hr Hm; autorewrite with events in Hr;
        try discriminate.
      injection Hr as <-. congruence.
  - intros w0 t w1 t2 res E _ IH. apply round_retry in E. cbv zeta in E.
    destruct E as (Hw & _ & _ & -> & _).
    apply each_followed_app; [|exact IH].
    destruct (latch_set _); unfold wait_events; walk; intros r Hr Hm;
      autorewrite with events in Hr; try discriminate;
      injection Hr as <-; congruence.
Qed.

(** More fuel does not change a call that ended. *)
Lemma rounds_fuel_irrelevant (fuel : nat) :
  forall (w : World) (fuel' : nat),
    result_of (rounds' fuel w) <> OutOfFuel ->
    (fuel <= fuel')%nat ->
    rounds' fuel' w = rounds' fuel w.
Proof.
  induction fuel as [|fuel IH]; intros w fuel' Hres Hle.
  - now contradiction Hres.
  - destruct fuel' as [|fuel']; [lia|]. cbn [rounds] in *.
    destruct (round d port ptr len w) as [[t w1] [|res]]; [|reflexivity].
    rewrite (IH w1 fuel'); [reflexivity| |lia].
    destruct (rounds' fuel w1) as [[t2 w2] res]. exact Hres.
Qed.

(** The rounds of a call whose transport answers would-block [k] times and
    then something else, with nothing in the way. *)
Lemma rounds_after_k_waits (k : nat) :
  forall (w : World) (fuel : nat),
    (forall i, (i < k)%nat ->
       let r := transport w (n_io w + i) in
       must_wait port (io_n r) (io_errno r) = true /\
       USE_ASSERT_CHECKING && negb (truthy (waitfor_of d port r)) = false) ->
    (forall i, (i < k)%nat -> postmaster_died (waits w (n_wait w + i)) = false) ->
    (forall j, interrupts w j = true) ->
    (let r := transport w (n_io w + k) in
     must_wait port (io_n r) (io_errno r) = false) ->
    (k < fuel)%nat ->
    let r := transport w (n_io w + k) in
    result_of (rounds' fuel w) = Return (io_n r) /\
    errno (world_of (rounds' fuel w)) = io_errno r /\
    count is_WaitEventSetWait (trace_of (rounds' fuel w)) = k /\
    count is_io (trace_of (rounds' fuel w)) = S k.
Proof.
  cbv zeta.
  induction k as [|k IH]; intros w fuel Hwb Hd Hi Hk Hf;
    (destruct fuel as [|fuel]; [lia|]); cbn [rounds];
    destruct (round d port ptr len w) as [[t w1] [|res]] eqn:E.
  - apply round_retry in E. cbv zeta in E. destruct E as (Hw & _).
    rewrite Nat.add_0_r in Hk. congruence.
  - apply round_stop in E. cbv zeta in E. rewrite Nat.add_0_r in *.
    destruct E as [(_ & -> & -> & He)|[(Hw & _)|(Hw & _)]]; try congruence.
    rewrite Hi. cbn [result_of world_of trace_of fst snd].
    repeat split; auto; count_events; reflexivity.
  - apply round_retry in E. cbv zeta in E.
    destruct E as (_ & _ & _ & -> & _ & Ht & Hws & His & Hn & Hnw).
    specialize (IH w1 fuel). rewrite Ht, Hws, His, Hn, Hnw in IH.
    assert (Hidx : forall i, (S (n_io w) + i = n_io w + S i)%nat) by (intros; lia).
    assert (Hidw : forall i, (S (n_wait w) + i = n_wait w + S i)%nat) by (intros; lia).
    destruct IH as (R1 & R2 & R3 & R4).
    + intros i Hlt. rewrite Hidx. apply Hwb. lia.
    + intros i Hlt. rewrite Hidw. apply Hd. lia.
    + exact Hi.
    + rewrite Hidx. exact Hk.
    + lia.
    + rewrite Hidx in R1, R2.
      destruct (rounds' fuel w1) as [[t2 w2] res].
      cbn [result_of world_of trace_of fst snd] in *.
      repeat split; auto.
      * count_events. rewrite R3. destruct (latch_set _); count_events; reflexivity.
      * count_events. rewrite R4. destruct (latch_set _); count_events; reflexivity.
  - exfalso. apply round_stop in E. cbv zeta in E.
    destruct (Hwb O ltac:(lia)) as [Hw Ha]. cbv zeta in Hw, Ha.
    rewrite Nat.add_0_r in Hw, Ha.
    specialize (Hd O ltac:(lia)). rewrite Nat.add_0_r in Hd.
    destruct E as [(Hw' & _)|[(_ & Hu & Hz & _)|(_ & _ & occ & -> & [H|H])]].
    + congruence.
    + rewrite Hu, Hz in Ha. discriminate Ha.
    + destruct H as (H & _). congruence.
    + destruct H as (_ & _ & H & _). rewrite Hi in H. discriminate H.
Qed.

(** The rounds of a call whose transport answers would-block for ever. *)
Lemma rounds_never_give_up (fuel : nat) :
  forall (w : World),
    (forall i, let r := transport w i in
       must_wait port (io_n r) (io_errno r) = true /\
       USE_ASSERT_CHECKING && negb (truthy (waitfor_of d port r)) = false) ->
    (forall i, postmaster_died (waits w i) = false) ->
    (forall j, interrupts w j = true) ->
    result_of (rounds' fuel w) = OutOfFuel /\
    count is_io (trace_of (rounds' fuel w)) = fuel /\
    count is_WaitEventSetWait (trace_of (rounds' fuel w)) = fuel.
Proof.
  induction fuel as [|fuel IH]; intros w Hwb Hd Hi; [repeat split|].
  cbn [rounds]. destruct (round d port ptr len w) as [[t w1] [|res]] eqn:E.
  - apply round_retry in E. cbv zeta in E.
    destruct E as (_ & _ & _ & -> & _ & Ht & Hws & His & _).
    destruct (IH w1) as (R1 & R2 & R3).
    + now rewrite Ht.
    + now rewrite Hws.
    + now rewrite His.
    + destruct (rounds' fuel w1) as [[t2 w2] res].
      cbn [result_of world_of trace_of fst snd] in *.
      repeat split; auto.
      * count_events. rewrite R2. destruct (latch_set _); count_events; reflexivity.
      * count_events. rewrite R3. destruct (latch_set _); count_events; reflexivity.
  - exfalso. apply round_stop in E. cbv zeta in E.
    destruct (Hwb (n_io w)) as [Hw Ha]. cbv zeta in Hw, Ha.
    destruct E as [(Hw' & _)|[(_ & Hu & Hz & _)|(_ & _ & occ & -> & [H|H])]].
    + congruence.
    + rewrite Hu, Hz in Ha. discriminate Ha.
    + destruct H as (H & _). rewrite Hd in H. discriminate H.
    + destruct H as (_ & _ & H & _). rewrite Hi in H. discriminate H.
Qed.

(** What the rounds leave alone. *)
Lemma rounds_frame (fuel : nat) (w : World) :
  let w2 := world_of (rounds' fuel w) in
  globals w2 = globals w /\ fs w2 = fs w /\ euid w2 = euid w /\
  transport w2 = transport w /\ waits w2 = waits w /\ interrupts w2 = interrupts w.
Proof.
  cbv zeta.
  apply (rounds_ind d port ptr len
           (fun w0 _ w2 _ =>
              globals w2 = globals w0 /\ fs w2 = fs w0 /\ euid w2 = euid w0 /\
              transport w2 = transport w0 /\ waits w2 = waits w0 /\
              interrupts w2 = interrupts w0)).
  - repeat split.
  - intros w0 t w1 res E. pose proof (round_frame w0) as F. rewrite E in F.
    cbn in F. tauto.
  - intros w0 t w1 t2 w2 res E (A & B & C & D & F & G).
    pose proof (round_frame w0) as H. rewrite E in H. cbn in H.
    destruct H as (A' & B' & C' & D' & F' & G' & _).
    repeat split; congruence.
Qed.

(** The Windows flag is down again after every round. *)
Lemma rounds_lower_the_flag (fuel : nat) (w : World) :
  pgwin32_noblock (world_of (rounds' (S fuel) w))
  = (if negb (encrypted port) && WIN32 then false else pgwin32_noblock w).
Proof.
  revert w. induction fuel as [|fuel IH]; intros w.
  - cbn [rounds]. pose proof (round_frame w) as F.
    destruct (round d port ptr len w) as [[t w1] [|res]]; cbn in F |- *; apply F.
  - pose proof (round_frame w) as F. remember (S fuel) as f eqn:Ef.
    cbn [rounds]. destruct (round d port ptr len w) as [[t w1] [|res]]; cbn in F.
    + subst f. specialize (IH w1).
      destruct (rounds' (S fuel) w1) as [[t2 w2] res]. cbn in IH |- *.
      destruct F as (_ & _ & _ & _ & _ & _ & F). rewrite IH, F.
      now destruct (negb (encrypted port) && WIN32).
    + apply F.
Qed.

(** Every wait and latch reset is issued the same way, and registering with
    the wait set is followed by waiting on it. *)
Lemma waits_are_uniform (fuel : nat) (w : World) :
  Forall (waits_as_issued d) (trace_of (rounds' fuel w)) /\
  each_followed
    (fun e rest => is_ModifyWaitEvent e = true ->
       exists occurred rest',
         rest = Ev_WaitEventSetWait FeBeWaitSet (-1) 1 (wait_info d) occurred :: rest')
    (trace_of (rounds' fuel w)).
Proof.
  assert (Hio : forall r, waits_as_issued d (io' r))
    by (intros r; unfold io_event; destruct d, (encrypted port); exact I).
  assert (Hint : forall b, waits_as_issued d (interrupt_event d b))
    by (intros b; destruct d; exact I).
  assert (Hiom : forall r, is_ModifyWaitEvent (io' r) = false)
    by (intros r; unfold io_event; destruct d, (encrypted port); reflexivity).
  assert (Hintm : forall b, is_ModifyWaitEvent (interrupt_event d b) = false)
    by (intros b; destruct d; reflexivity).
  apply (rounds_ind_open d port ptr len
           (fun t _ =>
              Forall (waits_as_issued d) t /\
              each_followed
                (fun e rest => is_ModifyWaitEvent e = true ->
                   exists occurred rest',
                     rest = Ev_WaitEventSetWait FeBeWaitSet (-1) 1 (wait_info d) occurred
                            :: rest') t)).
  - split; [constructor | exact I].
  - intros w0 t w1 res E. apply round_stop in E. cbv zeta in E.
    destruct E as [(_ & -> & _)|[(_ & _ & _ & -> & _)|(_ & _ & occ & _ & [H|H])]].
    + split; [repeat constructor; auto|].
      walk; intros Hm; rewrite ?Hiom, ?Hintm in Hm; discriminate.
    + split; [repeat constructor; auto|].
      walk; intros Hm; rewrite ?Hiom in Hm; discriminate.
    + destruct H as (_ & -> & _). unfold wait_events. split.
      * repeat constructor; auto; cbn; auto.
      * walk; intros Hm; rewrite ?Hiom in Hm; try discriminate. eauto.
    + destruct H as (_ & _ & _ & -> & _). unfold wait_events. split.
      * repeat constructor; auto; cbn; auto.
      * walk; intros Hm; rewrite ?Hiom, ?Hintm in Hm; try discriminate. eauto.
  - intros w0 t w1 t2 res E _ [IH1 IH2]. apply round_retry in E. cbv zeta in E.
    destruct E as (_ & _ & _ & -> & _). split.
    + apply Forall_app. split; [|exact IH1]. unfold wait_events.
      destruct (latch_set _); repeat constructor; auto; cbn; auto.
    + apply each_followed_app; [|exact IH2]. unfold wait_events.
      destruct (latch_set _); walk; intros Hm; rewrite ?Hiom, ?Hintm in Hm;
        try discriminate; cbn [app]; eauto.
Qed.

(** A loop calls its own transport primitive and interrupt processing only,
    and the TLS provider exactly on an encrypted port. *)
Lemma rounds_stay_in_their_lane (fuel : nat) (w : World) :
  Forall (fun e => emitted_by d e = true /\
                   (is_io e = true -> is_tls e = encrypted port))
         (trace_of (rounds' fuel w)).
Proof.
  assert (Hio : forall r, emitted_by d (io' r) = true /\
                          (is_io (io' r) = true -> is_tls (io' r) = encrypted port))
    by (intros r; unfold io_event; destruct d, (encrypted port); split; reflexivity).
  assert (Hint : forall b, emitted_by d (interrupt_event d b) = true /\
                           (is_io (interrupt_event d b) = true ->
                            is_tls (interrupt_event d b) = encrypted port))
    by (intros b; destruct d; split; try reflexivity; discriminate).
  apply (rounds_ind_open d port ptr len
           (fun t _ => Forall (fun e => emitted_by d e = true /\
                                        (is_io e = true -> is_tls e = encrypted port)) t)).
  - constructor.
  - intros w0 t w1 res E. apply round_stop in E. cbv zeta in E.
    destruct E as [(_ & -> & _)|[(_ & _ & _ & -> & _)|(_ & _ & occ & _ & [H|H])]];
      [ | | destruct H as (_ & -> & _) | destruct H as (_ & _ & _ & -> & _) ];
      unfold wait_events;
      repeat (apply Forall_cons || apply Forall_nil);
      try apply Hio; try apply Hint;
      (split; [destruct d; reflexivity | discriminate]).
  - intros w0 t w1 t2 res E _ IH. apply round_retry in E. cbv zeta in E.
    destruct E as (_ & _ & _ & -> & _).
    apply Forall_app. split; [|exact IH]. unfold wait_events.
    destruct (latch_set _);
      repeat (apply Forall_cons || apply Forall_nil);
      try apply Hio; try apply Hint;
      (split; [destruct d; reflexivity | discriminate]).
Qed.

(** The assertion fails only in an assert-enabled build, at a would-block
    answer that came with no direction. *)
Lemma trap_has_a_cause (fuel : nat) (w : World) :
  result_of (rounds' fuel w) = Trap ->
  USE_ASSERT_CHECKING = true /\
  exists pre r,
    trace_of (rounds' fuel w) = pre ++ [io' r; Ev_TrapAssert] /\
    must_wait port (io_n r) (io_errno r) = true /\
    waitfor_of d port r = 0.
Proof.
  apply (rounds_ind_open d port ptr len
           (fun t res => res = Trap ->
              USE_ASSERT_CHECKING = true /\
              exists pre r,
                t = pre ++ [io' r; Ev_TrapAssert] /\
                must_wait port (io_n r) (io_errno r) = true /\
                waitfor_of d port r = 0)).
  - discriminate.
  - intros w0 t w1 res E Hres. apply round_stop in E. cbv zeta in E.
    destruct E as [(_ & _ & -> & _)|[(Hw & Hu & Hz & -> & _)|(_ & _ & occ & _ & [H|H])]].
    + destruct (interrupts _ _); discriminate.
    + split; [exact Hu|]. exists [], (transport w0 (n_io w0)). auto.
    + destruct H as (_ & _ & ->). discriminate.
    + destruct H as (_ & _ & _ & _ & ->). discriminate.
  - intros w0 t w1 t2 res E _ IH Hres.
    destruct (IH Hres) as (Hu & pre & r & -> & Hw & Hz).
    split; [exact Hu|]. exists (t ++ pre), r. rewrite app_assoc. auto.
Qed.

End Further.

(** *** The rounds, equation by equation *)

Section Exact.
Variables (d : direction) (port : Port) (ptr len : Z).

Local Abbreviation rounds' := (rounds d port ptr len).
Local Abbreviation io' := (io_event d port ptr len).

Lemma round_retry_world (w : World) (t : list event) (w1 : World) :
  round d port ptr len w = (t, w1, Retry) -> w1 = after_wait port w.
Proof.
  unfold round, after_wait. cbv zeta.
  destruct (must_wait port _ _); [|discriminate].
  destruct (USE_ASSERT_CHECKING && _); [discriminate|].
  destruct (postmaster_died _); [discriminate|].
  destruct (latch_set _).
  - destruct (interrupts w (n_intr w)); [|discriminate]. now intros [= _ <-].
  - now intros [= _ <-].
Qed.

Lemma after_wait_scripts (w : World) :
  transport (after_wait port w) = transport w /\
  waits (after_wait port w) = waits w /\
  interrupts (after_wait port w) = interrupts w /\
  n_io (after_wait port w) = S (n_io w) /\
  n_wait (after_wait port w) = S (n_wait w) /\
  n_intr (after_wait port w)
  = (n_intr w + (if latch_set (waits w (n_wait w)) then 1 else 0))%nat.
Proof.
  unfold after_wait. cbv zeta.
  pose proof (after_io_scripts port w (transport w (n_io w))) as (A & B & C & D & E & F & _).
  destruct (latch_set _);
    cbn [transport waits interrupts n_io n_wait n_intr next_intr next_wait];
    repeat split; auto; lia.
Qed.

(** An answer that does not send the loop into the wait: the closing
    interrupt check, and out. *)
Lemma rounds_final (fuel : nat) (w : World) :
  let r := transport w (n_io w) in
  must_wait port (io_n r) (io_errno r) = false ->
  rounds' (S fuel) w
  = ([io' r; interrupt_event d false], next_intr (after_io port w r),
     if interrupts w (n_intr w) then Return (io_n r) else Interrupted).
Proof.
  cbv zeta. intros H. cbn [rounds]. unfold round. cbv zeta. now rewrite H.
Qed.

(** A wait that lets the call go on: the same call again, from the world
    after the wait. *)
Lemma rounds_retry (fuel : nat) (w : World) :
  let r := transport w (n_io w) in
  let occurred := waits w (n_wait w) in
  must_wait port (io_n r) (io_errno r) = true ->
  USE_ASSERT_CHECKING && negb (truthy (waitfor_of d port r)) = false ->
  postmaster_died occurred = false ->
  (latch_set occurred = true -> interrupts w (n_intr w) = true) ->
  let again := rounds' fuel (after_wait port w) in
  rounds' (S fuel) w
  = (wait_events d port ptr len r occurred
     ++ (if latch_set occurred
         then [Ev_ResetLatch MyLatch; interrupt_event d true] else [])
     ++ trace_of again,
     world_of again, result_of again).
Proof.
  cbv zeta. intros Hw Ha Hd Hi. cbn [rounds]. unfold round, after_wait. cbv zeta.
  rewrite Hw, Ha, Hd.
  destruct (latch_set _).
  - rewrite (Hi eq_refl).
    destruct (rounds' fuel _) as [[t2 w2] res]. cbn. rewrite <- ?app_assoc.
    reflexivity.
  - destruct (rounds' fuel _) as [[t2 w2] res]. reflexivity.
Qed.

(** A wait that reports the postmaster's death. *)
Lemma rounds_death (fuel : nat) (w : World) :
  let r := transport w (n_io w) in
  let occurred := waits w (n_wait w) in
  must_wait port (io_n r) (io_errno r) = true ->
  USE_ASSERT_CHECKING && negb (truthy (waitfor_of d port r)) = false ->
  postmaster_died occurred = true ->
  rounds' (S fuel) w
  = (wait_events d port ptr len r occurred ++ [Ev_ereport postmaster_report],
     next_wait (after_io port w r), Fatal postmaster_report).
Proof.
  cbv zeta. intros Hw Ha Hd. cbn [rounds]. unfold round. cbv zeta.
  now rewrite Hw, Ha, Hd.
Qed.

(** A wake whose interrupt processing raises. *)
Lemma rounds_wake_raises (fuel : nat) (w : World) :
  let r := transport w (n_io w) in
  let occurred := waits w (n_wait w) in
  must_wait port (io_n r) (io_errno r) = true ->
  USE_ASSERT_CHECKING && negb (truthy (waitfor_of d port r)) = false ->
  postmaster_died occurred = false ->
  latch_set occurred = true ->
  interrupts w (n_intr w) = false ->
  rounds' (S fuel) w
  = (wait_events d port ptr len r occurred
     ++ [Ev_ResetLatch MyLatch; interrupt_event d true],
     next_intr (next_wait (after_io port w r)), Interrupted).
Proof.
  cbv zeta. intros Hw Ha Hd Hl Hi. cbn [rounds]. unfold round. cbv zeta.
  now rewrite Hw, Ha, Hd, Hl, Hi.
Qed.

(** Whatever the wait reports, a round that must wait opens with the
    transport call, the registration and the wait. *)
Lemma rounds_open_with_wait (fuel : nat) (w : World) :
  let r := transport w (n_io w) in
  must_wait port (io_n r) (io_errno r) = true ->
  USE_ASSERT_CHECKING && negb (truthy (waitfor_of d port r)) = false ->
  exists rest,
    trace_of (rounds' (S fuel) w)
    = wait_events d port ptr len r (waits w (n_wait w)) ++ rest.
Proof.
  cbv zeta. intros Hw Ha.
  destruct (postmaster_died (waits w (n_wait w))) eqn:Hd.
  - rewrite (rounds_death fuel w Hw Ha Hd). eexists. reflexivity.
  - destruct (latch_set (waits w (n_wait w))) eqn:Hl.
    + destruct (interrupts w (n_intr w)) eqn:Hi.
      * rewrite (rounds_retry fuel w Hw Ha Hd (fun _ => Hi)). eexists. reflexivity.
      * rewrite (rounds_wake_raises fuel w Hw Ha Hd Hl Hi). eexists. reflexivity.
    + rewrite (rounds_retry fuel w Hw Ha Hd); [eexists; reflexivity|].
      congruence.
Qed.

(** *** Events with what came before them *)

Lemma split_in_app (t t2 pre post : list event) (e : event) :
  t ++ t2 = pre ++ e :: post ->
  (exists post', t = pre ++ e :: post' /\ post = post' ++ t2) \/
  (exists pre', pre = t ++ pre' /\ t2 = pre' ++ e :: post).
Proof.
  revert pre. induction t as [|x t IH]; intros pre H; cbn in H.
  - right. now exists pre.
  - destruct pre as [|y pre]; cbn in H.
    + injection H as -> H. left. exists t. now rewrite H.
    + injection H as -> H. destruct (IH pre H) as [(post' & -> & ->)|(pre' & -> & ->)].
      * left. now exists post'.
      * right. now exists pre'.
Qed.

(** Induction over the rounds for a property of each event, the events before
    it and the events after it. *)
Lemma rounds_ind_split
    (Q : World -> list event -> event -> list event -> result Z -> Prop) :
  (forall w t w1 res pre e post,
     round d port ptr len w = (t, w1, Stop res) ->
     t = pre ++ e :: post -> Q w pre e post res) ->
  (forall w t w1 t2 res pre e post',
     round d port ptr len w = (t, w1, Retry) ->
     opens_with_io t2 res ->
     t = pre ++ e :: post' -> Q w pre e (post' ++ t2) res) ->
  (forall w t w1 res pre' e post,
     round d port ptr len w = (t, w1, Retry) ->
     Q w1 pre' e post res -> Q w (t ++ pre') e post res) ->
  forall fuel w pre e post,
    trace_of (rounds' fuel w) = pre ++ e :: post ->
    Q w pre e post (result_of (rounds' fuel w)).
Proof.
  intros Hstop Hhead Htail. induction fuel as [|fuel IH]; intros w pre e post Ht.
  - destruct pre; discriminate Ht.
  - cbn [rounds] in *. destruct (round d port ptr len w) as [[t w1] [|res]] eqn:E.
    + specialize (IH w1). pose proof (rounds_open_with_io d port ptr len fuel w1) as Ho.
      destruct (rounds' fuel w1) as [[t2 w2] res].
      cbn [trace_of result_of fst snd] in *.
      destruct (split_in_app _ _ _ _ _ Ht) as [(post' & Hin & ->)|(pre' & -> & Hin)].
      * exact (Hhead _ _ _ _ _ _ _ _ E Ho Hin).
      * exact (Htail _ _ _ _ _ _ _ E (IH _ _ _ Hin)).
    + exact (Hstop _ _ _ _ _ _ _ E Ht).
Qed.

Lemma round_retry_interrupts (w : World) (t : list event) (w1 : World) :
  round d port ptr len w = (t, w1, Retry) ->
  interrupts w1 = interrupts w /\
  n_intr w1 = (n_intr w + count (is_interrupt true) t)%nat.
Proof.
  intros E. pose proof (round_retry_world _ _ _ E) as ->.
  apply round_retry in E. cbv zeta in E. destruct E as (_ & _ & _ & -> & _).
  pose proof (after_wait_scripts w) as (_ & _ & Hi & _ & _ & Hn).
  split; [exact Hi|]. rewrite Hn.
  destruct (latch_set _); count_events; reflexivity.
Qed.

(** Walk through the ways an explicit list splits around one event. *)
Ltac enum_split H :=
  cbn [app] in H;
  repeat match type of H with
         | _ :: _ = ?pre ++ _ :: _ =>
             destruct pre as [|? pre]; cbn [app] in H;
             [ injection H as <- <- | injection H as <- H ]
         | [] = ?pre ++ _ :: _ => destruct pre; discriminate H
         end.

(** The closing interrupt check decides between the count and the way out
    through interrupt processing. *)
Lemma no_wait_is_final_exact (fuel : nat) (w : World) :
  forall pre e post r,
    trace_of (rounds' fuel w) = pre ++ e :: post ->
    answer_of e = Some r ->
    must_wait port (io_n r) (io_errno r) = false ->
    post = [interrupt_event d false] /\
    result_of (rounds' fuel w)
    = (if interrupts w (n_intr w + count (is_interrupt true) pre)
       then Return (io_n r) else Interrupted).
Proof.
  intros pre e post r Ht. revert r.
  apply (rounds_ind_split
           (fun w0 pre e post res => forall r,
              answer_of e = Some r ->
              must_wait port (io_n r) (io_errno r) = false ->
              post = [interrupt_event d false] /\
              res = (if interrupts w0 (n_intr w0 + count (is_interrupt true) pre)
                     then Return (io_n r) else Interrupted)))
    with (fuel := fuel) (w := w); [| | |exact Ht].
  - intros w0 t w1 res pre0 e0 post0 E Hsplit r Hr Hm.
    apply round_stop in E. cbv zeta in E.
    destruct E as [(_ & -> & -> & _)|[(Hw & _ & _ & -> & _)|(Hw & _ & occ & _ & [H|H])]];
      [ | | destruct H as (_ & -> & _) | destruct H as (_ & _ & _ & -> & _) ];
      unfold wait_events in Hsplit; enum_split Hsplit;
      autorewrite with events in Hr; cbn [answer_of] in Hr; try discriminate Hr;
      injection Hr as <-; try congruence.
    split; [reflexivity|]. now rewrite Nat.add_0_r.
  - intros w0 t w1 t2 res pre0 e0 post0 E _ Hsplit r Hr Hm.
    apply round_retry in E. cbv zeta in E. destruct E as (Hw & _ & _ & -> & _).
    unfold wait_events in Hsplit.
    destruct (latch_set _); enum_split Hsplit;
      autorewrite with events in Hr; cbn [answer_of] in Hr; try discriminate Hr;
      injection Hr as <-; congruence.
  - intros w0 t w1 res pre' e0 post0 E IH r Hr Hm.
    destruct (round_retry_interrupts _ _ _ E) as [Hi Hn].
    destruct (IH r Hr Hm) as [H1 H2]. split; [exact H1|].
    rewrite H2, Hi, Hn, count_app. now rewrite Nat.add_assoc.
Qed.

(** After a wake: the latch reset and the interrupt processing; if that
    returns, the next transport call, and if it raises, nothing more. *)
Lemma wake_exact (fuel : nat) (w : World) :
  forall pre e post,
    trace_of (rounds' fuel w) = pre ++ e :: post ->
    wakes e = true ->
    exists rest,
      post = Ev_ResetLatch MyLatch :: interrupt_event d true :: rest /\
      if interrupts w (n_intr w + count (is_interrupt true) pre)
      then opens_with_io rest (result_of (rounds' fuel w))
      else rest = [] /\ result_of (rounds' fuel w) = Interrupted.
Proof.
  intros pre e post Ht.
  apply (rounds_ind_split
           (fun w0 pre e post res =>
              wakes e = true ->
              exists rest,
                post = Ev_ResetLatch MyLatch :: interrupt_event d true :: rest /\
                if interrupts w0 (n_intr w0 + count (is_interrupt true) pre)
                then opens_with_io rest res
                else rest = [] /\ res = Interrupted))
    with (fuel := fuel) (w := w); [| | |exact Ht].
  - intros w0 t w1 res pre0 e0 post0 E Hsplit Hk.
    apply round_stop in E. cbv zeta in E.
    destruct E as [(_ & -> & -> & _)|[(Hw & _ & _ & -> & _)|(Hw & _ & occ & -> & [H|H])]];
      [ | | destruct H as (Hd & -> & _) | destruct H as (Hd & Hl & Hi & -> & ->) ];
      unfold wait_events in Hsplit; enum_split Hsplit;
      autorewrite with events in Hk; cbn [wakes] in Hk; try discriminate Hk.
    + rewrite Hd, andb_false_r in Hk. discriminate.
    + exists []. split; [reflexivity|]. count_events.
      rewrite Nat.add_0_r, Hi. auto.
  - intros w0 t w1 t2 res pre0 e0 post0 E Ho Hsplit Hk.
    apply round_retry in E. cbv zeta in E.
    destruct E as (Hw & _ & Hd & -> & Hi & _).
    unfold wait_events in Hsplit.
    destruct (latch_set _) eqn:Hl; enum_split Hsplit;
      autorewrite with events in Hk; cbn [wakes] in Hk; try discriminate Hk.
    + exists t2. split; [reflexivity|]. count_events.
      rewrite Nat.add_0_r, (Hi eq_refl). exact Ho.
    + rewrite Hl in Hk. discriminate.
  - intros w0 t w1 res pre' e0 post0 E IH Hk.
    destruct (round_retry_interrupts _ _ _ E) as [Hi Hn].
    destruct (IH Hk) as (rest & H1 & H2). exists rest. split; [exact H1|].
    rewrite Hi, Hn in H2. now rewrite count_app, Nat.add_assoc.
Qed.

(** Every wait comes right after its registration. *)
Lemma wait_follows_registration (fuel : nat) (w : World) :
  each_followed
    (fun e rest =>
       match rest with
       | Ev_WaitEventSetWait _ _ _ _ _ :: _ => is_ModifyWaitEvent e = true
       | _ => True
       end)
    (trace_of (rounds' fuel w)).
Proof.
  apply (rounds_ind_open d port ptr len
           (fun t _ => each_followed
              (fun e rest =>
                 match rest with
                 | Ev_WaitEventSetWait _ _ _ _ _ :: _ => is_ModifyWaitEvent e = true
                 | _ => True
                 end) t)).
  - exact I.
  - intros w0 t w1 res E. apply round_stop in E. cbv zeta in E.
    destruct E as [(_ & -> & _)|[(_ & _ & _ & -> & _)|(_ & _ & occ & _ & [H|H])]];
      [ | | destruct H as (_ & -> & _) | destruct H as (_ & _ & _ & -> & _) ];
      unfold wait_events; walk; try reflexivity; destruct d; exact I.
  - intros w0 t w1 t2 res E Ho IH. apply round_retry in E. cbv zeta in E.
    destruct E as (_ & _ & _ & -> & _).
    apply each_followed_app; [|exact IH].
    assert (Hlast : match t2 with
                    | Ev_WaitEventSetWait _ _ _ _ _ :: _ => False
                    | _ => True
                    end).
    { destruct t2 as [|[] t2]; cbn in Ho; try exact I; discriminate. }
    destruct (latch_set _); unfold wait_events; walk; try reflexivity;
      try (destruct d; cbn);
      destruct t2 as [|[] ?]; try exact I; contradiction.
Qed.

(** What comes before a registration, and before a wait. *)
Lemma before_registration (fuel : nat) (w : World) :
  forall pre set pos events post,
    trace_of (rounds' fuel w) = pre ++ Ev_ModifyWaitEvent set pos events :: post ->
    exists pre' r,
      pre = pre' ++ [io' r] /\
      must_wait port (io_n r) (io_errno r) = true /\
      set = FeBeWaitSet /\ pos = 0 /\ events = waitfor_of d port r.
Proof.
  intros pre set pos events post Ht.
  destruct pre as [|e0 pre0] eqn:Epre.
  - pose proof (rounds_open_with_io d port ptr len fuel w) as Ho.
    rewrite Ht in Ho. discriminate Ho.
  - destruct (@exists_last _ pre) as (pre' & e & Hl); [subst; discriminate|].
    rewrite <- Epre, Hl, <- app_assoc in Ht. cbn [app] in Ht.
    pose proof (each_followed_split _ _
                  (registration_follows_attempt d port ptr len fuel w) _ _ _ Ht) as H.
    cbn in H. destruct H as (r & -> & -> & -> & -> & Hw).
    exists pre', r. rewrite <- Epre. repeat split; auto.
Qed.

Lemma before_wait (fuel : nat) (w : World) :
  forall pre set timeout nevents info occurred post,
    trace_of (rounds' fuel w)
    = pre ++ Ev_WaitEventSetWait set timeout nevents info occurred :: post ->
    exists pre' r,
      pre = pre' ++ [io' r; Ev_ModifyWaitEvent FeBeWaitSet 0 (waitfor_of d port r)] /\
      must_wait port (io_n r) (io_errno r) = true.
Proof.
  intros pre set timeout nevents info occurred post Ht.
  destruct pre as [|e0 pre0] eqn:Epre.
  - pose proof (rounds_open_with_io d port ptr len fuel w) as Ho.
    rewrite Ht in Ho. discriminate Ho.
  - destruct (@exists_last _ pre) as (pre1 & m & Hl); [subst; discriminate|].
    rewrite <- Epre, Hl, <- app_assoc in Ht. cbn [app] in Ht.
    pose proof (each_followed_split _ _
                  (wait_follows_registration fuel w) _ _ _ Ht) as Hm.
    cbn in Hm. destruct m; try discriminate Hm.
    destruct (before_registration fuel w _ _ _ _ _ Ht)
      as (pre' & r & -> & Hw & -> & -> & ->).
    exists pre', r. rewrite <- Epre, Hl, <- app_assoc. auto.
Qed.

End Exact.

End Dispatcher.

(** ** Properties of the dispatch loops *)

Section LoopProperties.
Context {P : Platform}.

(** C1: on a blocking port ([noblock] false) neither [secure_read] nor
    [secure_write] hands a would-block answer (a negative count with errno
    EWOULDBLOCK or EAGAIN) back to its caller.  A would-block answer makes
    the loop register with the wait set and wait; unless the wait reports the
    postmaster's death or interrupt processing raises, what follows is the
    same call again.  So after [k] would-block answers and one other answer
    the call returns the count of that answer, having waited [k] times; an
    answer that is not would-block is returned at once. *)
Theorem blocking_call_never_returns_would_block (d : direction) (port : Port)
    (ptr len : Z) (w : World) :
  noblock port = false ->
  (forall fuel n,
     let out := secure_io d fuel port ptr len w in
     result_of out = Return n -> would_block n (errno (world_of out)) = false) /\
  (forall fuel,
     let out := secure_io d fuel port ptr len w in
     result_of out <> Trap ->
     count is_WaitEventSetWait (trace_of out) = count answers_would_block (trace_of out)) /\
  (forall fuel n,
     let out := secure_io d fuel port ptr len w in
     result_of out = Return n ->
     count is_io (trace_of out) = S (count is_WaitEventSetWait (trace_of out))) /\
  (forall k fuel,
     would_block (io_n (transport w (n_io w + k)))
                 (io_errno (transport w (n_io w + k))) = false ->
     (k < fuel)%nat ->
     result_of (secure_io d fuel port ptr len w) <> OutOfFuel) /\
  (forall fuel,
     let r := transport w (n_io w) in
     let occurred := waits w (n_wait w) in
     would_block (io_n r) (io_errno r) = true ->
     USE_ASSERT_CHECKING && negb (truthy (waitfor_of d port r)) = false ->
     postmaster_died occurred = false ->
     (latch_set occurred = true -> interrupts w (n_intr w) = true) ->
     let again := secure_io d fuel port ptr len (after_wait port w) in
     secure_io d (S fuel) port ptr len w
     = ([io_event d port ptr len r;
         Ev_ModifyWaitEvent FeBeWaitSet 0 (waitfor_of d port r);
         Ev_WaitEventSetWait FeBeWaitSet (-1) 1 (wait_info d) occurred]
        ++ (if latch_set occurred
            then [Ev_ResetLatch MyLatch; interrupt_event d true] else [])
        ++ trace_of again,
        world_of again, result_of again)) /\
  (forall fuel,
     let r := transport w (n_io w) in
     would_block (io_n r) (io_errno r) = false ->
     secure_io d (S fuel) port ptr len w
     = ([io_event d port ptr len r; interrupt_event d false],
        next_intr (after_io port w r),
        if interrupts w (n_intr w) then Return (io_n r) else Interrupted)) /\
  (forall k fuel,
     (forall i, (i < k)%nat ->
        let r := transport w (n_io w + i) in
        would_block (io_n r) (io_errno r) = true /\
        USE_ASSERT_CHECKING && negb (truthy (waitfor_of d port r)) = false) ->
     (forall i, (i < k)%nat -> postmaster_died (waits w (n_wait w + i)) = false) ->
     (forall j, interrupts w j = true) ->
     (let r := transport w (n_io w + k) in
      would_block (io_n r) (io_errno r) = false) ->
     (k < fuel)%nat ->
     let r := transport w (n_io w + k) in
     let out := secure_io d fuel port ptr len w in
     result_of out = Return (io_n r) /\
     errno (world_of out) = io_errno r /\
     count is_WaitEventSetWait (trace_of out) = k /\
     count is_io (trace_of out) = S k).
Proof.
  intros Hb. repeat apply conj; cbv zeta; intros; rewrite ?secure_io_rounds in *.
  - now apply returned_is_not_would_block.
  - now apply waits_match_would_blocks.
  - now apply (waits_match_would_blocks d port ptr len Hb fuel w) with n.
  - now apply ends_when_transport_answers with k.
  - apply rounds_retry; auto. now rewrite must_wait_blocking.
  - apply rounds_final. now rewrite must_wait_blocking.
  - apply rounds_after_k_waits; auto.
    + intros i Hlt. cbv zeta. rewrite must_wait_blocking by exact Hb. auto.
    + cbv zeta. now rewrite must_wait_blocking.
Qed.

(** C3: when a wait reports that the postmaster died, what follows is the
    FATAL report with ERRCODE_ADMIN_SHUTDOWN and nothing else: no latch
    reset, no interrupt processing, no further attempt, and the call does not
    return. *)
Theorem postmaster_death_is_fatal (d : direction) (port : Port) (ptr len : Z)
    (w : World) (fuel : nat) :
  let out := secure_io d fuel port ptr len w in
  let shutdown :=
    {| rep_level := FATAL; rep_code := ERRCODE_ADMIN_SHUTDOWN;
       rep_msg := "terminating connection due to unexpected postmaster exit";
       rep_detail := None |} in
  forall pre set timeout nevents info occurred post,
    trace_of out = pre ++ Ev_WaitEventSetWait set timeout nevents info occurred :: post ->
    postmaster_died occurred = true ->
    post = [Ev_ereport shutdown] /\
    result_of out = Fatal shutdown /\
    (forall n, result_of out <> Return n).
Proof.
  cbv zeta. intros pre set timeout nevents info occurred post Ht Hd.
  rewrite secure_io_rounds in *.
  pose proof (each_followed_split _ _ (death_ends_the_process d port ptr len fuel w)
                _ _ _ Ht occurred eq_refl Hd) as [H1 H2].
  repeat split; auto. intros n. rewrite H2. discriminate.
Qed.

(** C4: on a non-blocking port ([noblock] true) the call is one transport
    attempt and the closing interrupt check; whatever the transport answered,
    would-block included, goes back to the caller.  The wait set is neither
    modified nor waited on. *)
Theorem nonblocking_call_returns_at_once (d : direction) (port : Port) (ptr len : Z)
    (w : World) (fuel : nat) :
  noblock port = true ->
  let r := transport w (n_io w) in
  let out := secure_io d (S fuel) port ptr len w in
  trace_of out = [io_event d port ptr len r; interrupt_event d false] /\
  errno (world_of out) = io_errno r /\
  result_of out = (if interrupts w (n_intr w) then Return (io_n r) else Interrupted) /\
  count is_wait (trace_of out) = O /\
  count is_io (trace_of out) = 1%nat.
Proof.
  intros Hnb. cbv zeta. rewrite secure_io_rounds.
  rewrite (nonblocking_single_round d port ptr len fuel w Hnb).
  cbn [trace_of world_of result_of fst snd errno next_intr].
  repeat split.
  - apply after_io_scripts.
  - unfold io_event. destruct d, (encrypted port); reflexivity.
  - unfold io_event. destruct d, (encrypted port); reflexivity.
Qed.

(** C7: a would-block answer on a blocking port makes the loop register a
    readiness with the wait set and then wait, and every wait of a call comes
    right after such a registration.  The readiness registered is, on a plain
    connection, WL_SOCKET_READABLE for [secure_read] and WL_SOCKET_WRITEABLE
    for [secure_write]; on an encrypted connection it is whatever the TLS
    provider left in [waitfor] (0 if it left nothing), whichever the
    direction of the call.  The value recorded is the [int] the loop passes;
    as the [uint32] parameter of [ModifyWaitEvent] it is that value modulo
    2^32, the value itself for every set of flags. *)
Theorem wait_direction_is_the_reported_one (d : direction) (port : Port) (ptr len : Z)
    (w : World) (fuel : nat) :
  let out := secure_io d fuel port ptr len w in
  let reported (r : io_result) :=
    if USE_SSL && ssl_in_use port
    then match io_waitfor r with Some x => x | None => 0 end
    else match d with
         | Reading => WL_SOCKET_READABLE
         | Writing => WL_SOCKET_WRITEABLE
         end in
  (let r := transport w (n_io w) in
   would_block (io_n r) (io_errno r) = true -> noblock port = false ->
   USE_ASSERT_CHECKING && negb (truthy (reported r)) = false ->
   exists rest,
     trace_of (secure_io d (S fuel) port ptr len w)
     = io_event d port ptr len r
       :: Ev_ModifyWaitEvent FeBeWaitSet 0 (reported r)
       :: Ev_WaitEventSetWait FeBeWaitSet (-1) 1 (wait_info d) (waits w (n_wait w))
       :: rest) /\
  (forall pre set timeout nevents info occurred post,
     trace_of out
     = pre ++ Ev_WaitEventSetWait set timeout nevents info occurred :: post ->
     exists pre' r,
       pre = pre' ++ [io_event d port ptr len r;
                      Ev_ModifyWaitEvent FeBeWaitSet 0 (reported r)] /\
       would_block (io_n r) (io_errno r) = true /\ noblock port = false) /\
  (forall pre set pos events post,
     trace_of out = pre ++ Ev_ModifyWaitEvent set pos events :: post ->
     exists pre' r,
       pre = pre' ++ [io_event d port ptr len r] /\
       would_block (io_n r) (io_errno r) = true /\ noblock port = false /\
       set = FeBeWaitSet /\ pos = 0 /\
       events = reported r /\
       as_uint32 events = as_uint32 (reported r) /\
       (0 <= reported r < 2 ^ 32 -> as_uint32 events = reported r)).
Proof.
  cbv zeta. rewrite !secure_io_rounds. split; [|split].
  - intros Hwb Hnb Ha.
    destruct (rounds_open_with_wait d port ptr len fuel w) as (rest & Hrest).
    + rewrite must_wait_spec, Hwb, Hnb. reflexivity.
    + exact Ha.
    + exists rest. exact Hrest.
  - intros pre set timeout nevents info occurred post Ht.
    destruct (before_wait d port ptr len fuel w _ _ _ _ _ _ _ Ht)
      as (pre' & r & -> & Hw).
    apply must_wait_would_block in Hw as [Hw Hb].
    exists pre', r. auto.
  - intros pre set pos events post Ht.
    destruct (before_registration d port ptr len fuel w _ _ _ _ _ Ht)
      as (pre' & r & -> & Hw & -> & -> & ->).
    apply must_wait_would_block in Hw as [Hw Hb].
    exists pre', r. repeat split; auto.
    intros Hrange. unfold as_uint32. now apply Z.mod_small.
Qed.

(** C8: all transport attempts of one call are the same call: the same
    primitive on the same port with the same buffer and length, and after a
    wait the loop is the same call again.  An attempt that transferred
    [n >= 0] bytes (fewer than asked, or none, included) is followed by the
    closing interrupt check only, and the call returns [n] if that check
    returns and is left through it if it raises; an attempt is followed by
    another one only if it answered would-block on a blocking port. *)
Theorem retries_repeat_the_call (d : direction) (port : Port) (ptr len : Z)
    (w : World) (fuel : nat) :
  let out := secure_io d fuel port ptr len w in
  (forall e, In e (trace_of out) -> is_io e = true ->
     exists r, e = io_event d port ptr len r) /\
  (forall pre e post r,
     trace_of out = pre ++ e :: post -> answer_of e = Some r ->
     (0 <= io_n r ->
      post = [interrupt_event d false] /\
      result_of out
      = (if interrupts w (n_intr w + count (is_interrupt true) pre)
         then Return (io_n r) else Interrupted)) /\
     (existsb is_io post = true ->
      would_block (io_n r) (io_errno r) = true /\ noblock port = false)) /\
  (let r := transport w (n_io w) in
   0 <= io_n r ->
   secure_io d (S fuel) port ptr len w
   = ([io_event d port ptr len r; interrupt_event d false],
      next_intr (after_io port w r),
      if interrupts w (n_intr w) then Return (io_n r) else Interrupted)) /\
  (let r := transport w (n_io w) in
   let occurred := waits w (n_wait w) in
   would_block (io_n r) (io_errno r) = true -> noblock port = false ->
   USE_ASSERT_CHECKING && negb (truthy (waitfor_of d port r)) = false ->
   postmaster_died occurred = false ->
   (latch_set occurred = true -> interrupts w (n_intr w) = true) ->
   let again := secure_io d fuel port ptr len (after_wait port w) in
   secure_io d (S fuel) port ptr len w
   = ([io_event d port ptr len r;
       Ev_ModifyWaitEvent FeBeWaitSet 0 (waitfor_of d port r);
       Ev_WaitEventSetWait FeBeWaitSet (-1) 1 (wait_info d) occurred]
      ++ (if latch_set occurred
          then [Ev_ResetLatch MyLatch; interrupt_event d true] else [])
      ++ trace_of again,
      world_of again, result_of again)).
Proof.
  assert (Hnonneg : forall n e, 0 <= n -> must_wait port n e = false).
  { intros n e Hn. unfold must_wait.
    destruct (Z.ltb_spec n 0); [lia | reflexivity]. }
  cbv zeta. rewrite !secure_io_rounds. split; [|split; [|split]].
  - exact (proj1 (Forall_forall _ _) (attempts_identical d port ptr len fuel w)).
  - intros pre e post r Ht Hr. split.
    + intros Hn.
      exact (no_wait_is_final_exact d port ptr len fuel w _ _ _ r Ht Hr
               (Hnonneg _ _ Hn)).
    + exact (proj2 (each_followed_split _ _
                      (partial_transfer_is_final d port ptr len fuel w)
                      _ _ _ Ht r Hr)).
  - intros Hn. apply rounds_final. now apply Hnonneg.
  - intros Hwb Hnb Ha Hd Hi. apply rounds_retry; auto.
    rewrite must_wait_spec, Hwb, Hnb. reflexivity.
Qed.

(** C9: blocking-aware interrupt processing (argument [true]) runs once for
    every wait that comes back for the latch with the postmaster alive, right
    after the latch is reset.  If it returns, the loop is the same call
    again, starting with the next transport attempt; only if it raises is the
    call left there.  The loop reports an error of its own only for the
    postmaster's death.  Interrupt processing with argument [false] runs at
    most once: it is the last thing before every return, and it follows
    every answer that does not send the loop into the wait. *)
Theorem interrupt_processing_once (d : direction) (port : Port) (ptr len : Z)
    (w : World) (fuel : nat) :
  let out := secure_io d fuel port ptr len w in
  let t := trace_of out in
  count (is_interrupt true) t = count wakes t /\
  (forall pre e post,
     t = pre ++ e :: post -> wakes e = true ->
     exists rest,
       post = Ev_ResetLatch MyLatch :: interrupt_event d true :: rest /\
       if interrupts w (n_intr w + count (is_interrupt true) pre)
       then match rest with
            | [] => result_of out = OutOfFuel
            | e' :: _ => is_io e' = true
            end
       else rest = [] /\ result_of out = Interrupted) /\
  (forall r, result_of out = Fatal r ->
     exists pre occurred,
       t = pre ++ [Ev_WaitEventSetWait FeBeWaitSet (-1) 1 (wait_info d) occurred;
                   Ev_ereport r] /\
       postmaster_died occurred = true) /\
  (count (is_interrupt false) t <= 1)%nat /\
  (forall n, result_of out = Return n ->
     count (is_interrupt false) t = 1%nat /\
     exists pre, t = pre ++ [interrupt_event d false]) /\
  (let r := transport w (n_io w) in
   let occurred := waits w (n_wait w) in
   would_block (io_n r) (io_errno r) = true -> noblock port = false ->
   USE_ASSERT_CHECKING && negb (truthy (waitfor_of d port r)) = false ->
   postmaster_died occurred = false -> latch_set occurred = true ->
   if interrupts w (n_intr w)
   then
     let again := secure_io d fuel port ptr len
                    (next_intr (next_wait (after_io port w r))) in
     secure_io d (S fuel) port ptr len w
     = ([io_event d port ptr len r;
         Ev_ModifyWaitEvent FeBeWaitSet 0 (waitfor_of d port r);
         Ev_WaitEventSetWait FeBeWaitSet (-1) 1 (wait_info d) occurred;
         Ev_ResetLatch MyLatch; interrupt_event d true]
        ++ trace_of again,
        world_of again, result_of again)
   else
     secure_io d (S fuel) port ptr len w
     = ([io_event d port ptr len r;
         Ev_ModifyWaitEvent FeBeWaitSet 0 (waitfor_of d port r);
         Ev_WaitEventSetWait FeBeWaitSet (-1) 1 (wait_info d) occurred;
         Ev_ResetLatch MyLatch; interrupt_event d true],
        next_intr (next_wait (after_io port w r)), Interrupted)) /\
  (let r := transport w (n_io w) in
   would_block (io_n r) (io_errno r) = false \/ noblock port = true ->
   secure_io d (S fuel) port ptr len w
   = ([io_event d port ptr len r; interrupt_event d false],
      next_intr (after_io port w r),
      if interrupts w (n_intr w) then Return (io_n r) else Interrupted)).
Proof.
  cbv zeta. rewrite !secure_io_rounds.
  split; [apply one_interrupt_check_per_wake|].
  split.
  { intros pre e post Ht Hk.
    exact (wake_exact d port ptr len fuel w _ _ _ Ht Hk). }
  split.
  { intros r Hr. destruct (fatal_only_on_death d port ptr len fuel w r Hr)
      as (pre & occ & Ht & _ & Hd).
    now exists pre, occ. }
  split; [apply closing_interrupt_check|].
  split; [apply closing_interrupt_check|].
  split.
  - intros Hwb Hnb Ha Hd Hl.
    assert (Hw : must_wait port (io_n (transport w (n_io w)))
                   (io_errno (transport w (n_io w))) = true)
      by (rewrite must_wait_spec, Hwb, Hnb; reflexivity).
    destruct (interrupts w (n_intr w)) eqn:Hi.
    + rewrite (rounds_retry d port ptr len fuel w Hw Ha Hd (fun _ => Hi)).
      unfold after_wait. cbv zeta. rewrite Hl. reflexivity.
    + exact (rounds_wake_raises d port ptr len fuel w Hw Ha Hd Hl Hi).
  - intros Hc. apply rounds_final. rewrite must_wait_spec.
    destruct Hc as [-> | ->]; [reflexivity | apply andb_false_r].
Qed.

(** C10: the [Assert(waitfor)] before the wait holds.  On a plain connection
    [waitfor] is WL_SOCKET_READABLE or WL_SOCKET_WRITEABLE, which are flags
    (not 0); on an encrypted one it holds provided the TLS provider stores a
    direction whenever it answers would-block.  So no call traps, and every
    registration with the wait set names a direction. *)
Theorem waitfor_is_set_before_waiting (d : direction) (port : Port) (ptr len : Z)
    (w : World) (fuel : nat) :
  WL_SOCKET_READABLE <> 0 -> WL_SOCKET_WRITEABLE <> 0 ->
  (USE_SSL && ssl_in_use port = true ->
   forall k, let r := transport w k in
     would_block (io_n r) (io_errno r) = true ->
     exists x, io_waitfor r = Some x /\ x <> 0) ->
  let out := secure_io d fuel port ptr len w in
  result_of out <> Trap /\
  ~ In Ev_TrapAssert (trace_of out) /\
  (forall set pos events,
     In (Ev_ModifyWaitEvent set pos events) (trace_of out) -> events <> 0).
Proof.
  intros Hr Hw Hp. cbv zeta. rewrite secure_io_rounds.
  assert (Hn : nominal_direction d <> 0) by (destruct d; assumption).
  destruct (waitfor_asserted d port ptr len fuel w Hn Hp) as [H1 H2].
  rewrite Forall_forall in H2.
  split; [exact H1|]. split.
  - intros Hin. now apply (H2 _ Hin).
  - intros set pos events Hin. exact (proj2 (H2 _ Hin) set pos events eq_refl).
Qed.

End LoopProperties.

Lemma blocking_call_witness :
  let out := @secure_io linux_build Reading 3 plain_port 4096 8192
               (socket_world [again; again; moved 100] [2; 2] []) in
  result_of out = Return 100 /\
  count is_WaitEventSetWait (trace_of out) = 2%nat /\
  @would_block linux_build 100 (errno (world_of out)) = false.
Proof.
  cbv zeta.
  destruct (@blocking_call_never_returns_would_block linux_build Reading plain_port
              4096 8192 (socket_world [again; again; moved 100] [2; 2] []) eq_refl)
    as (H & _).
  refine (conj eq_refl (conj eq_refl _)).
  apply (H 3%nat 100). reflexivity.
Defined.

Lemma postmaster_death_witness :
  result_of (@secure_io linux_build Writing 5 plain_port 4096 8192
               (socket_world [again] [16] []))
  = Fatal postmaster_report.
Proof.
  apply (@postmaster_death_is_fatal linux_build Writing plain_port 4096 8192
           (socket_world [again] [16] []) 5
           [Ev_send 7 4096 8192 0 again; Ev_ModifyWaitEvent FeBeWaitSet 0 4]
           FeBeWaitSet (-1) 1 WAIT_EVENT_CLIENT_WRITE 16
           [Ev_ereport postmaster_report]); reflexivity.
Defined.

Lemma nonblocking_call_witness :
  let out := @secure_io linux_build Reading 3 nonblocking_port 4096 8192
               (socket_world [again; moved 100] [] []) in
  trace_of out = [Ev_recv 7 4096 8192 0 again; Ev_ProcessClientReadInterrupt false] /\
  result_of out = Return (-1) /\ errno (world_of out) = 11.
Proof.
  cbv zeta.
  destruct (@nonblocking_call_returns_at_once linux_build Reading nonblocking_port
              4096 8192 (socket_world [again; moved 100] [] []) 2 eq_refl)
    as (Ht & He & Hr & _).
  rewrite Ht, He, Hr. repeat split.
Defined.

(** A read on a TLS connection whose provider needs the socket writeable: the
    loop registers WL_SOCKET_WRITEABLE (4), not the direction of the call,
    and waits. *)
Lemma wait_direction_witness :
  exists rest,
    trace_of (@secure_io linux_build Reading 3 tls_port 4096 8192
                (socket_world [again_for 4; moved 100] [4] []))
    = Ev_be_tls_read tls_port 4096 8192 (again_for 4)
      :: Ev_ModifyWaitEvent FeBeWaitSet 0 4
      :: Ev_WaitEventSetWait FeBeWaitSet (-1) 1 WAIT_EVENT_CLIENT_READ 4
      :: rest.
Proof.
  destruct (@wait_direction_is_the_reported_one linux_build Reading tls_port 4096 8192
              (socket_world [again_for 4; moved 100] [4] []) 2) as (H & _).
  exact (H eq_refl eq_refl eq_refl).
Defined.

Lemma waitfor_is_set_witness :
  let out := @secure_io linux_build Reading 2 tls_port 4096 8192
               (socket_world [again_for 4; moved 100] [4] []) in
  result_of out <> Trap /\
  ~ In Ev_TrapAssert (trace_of out) /\
  (forall set pos events,
     In (Ev_ModifyWaitEvent set pos events) (trace_of out) -> events <> 0).
Proof.
  apply (@waitfor_is_set_before_waiting linux_build Reading tls_port 4096 8192
           (socket_world [again_for 4; moved 100] [4] []) 2).
  - discriminate.
  - discriminate.
  - intros _ k. destruct k as [|[|[|k]]]; cbn; intros H; try discriminate H.
    exists 4. split; [reflexivity | discriminate].
Defined.

(** Two would-block answers, then 100 bytes: the third attempt is the last
    event before the closing interrupt check, and 100 is what comes back. *)
Lemma retries_repeat_the_call_witness :
  result_of (@secure_io linux_build Reading 10 plain_port 4096 8192
               (socket_world [again; again; moved 100] [2; 2] []))
  = Return 100.
Proof.
  destruct (@retries_repeat_the_call linux_build Reading plain_port 4096 8192
              (socket_world [again; again; moved 100] [2; 2] []) 10) as (_ & H & _).
  destruct (H [Ev_recv 7 4096 8192 0 again;
               Ev_ModifyWaitEvent FeBeWaitSet 0 2;
               Ev_WaitEventSetWait FeBeWaitSet (-1) 1 WAIT_EVENT_CLIENT_READ 2;
               Ev_recv 7 4096 8192 0 again;
               Ev_ModifyWaitEvent FeBeWaitSet 0 2;
               Ev_WaitEventSetWait FeBeWaitSet (-1) 1 WAIT_EVENT_CLIENT_READ 2]
              (Ev_recv 7 4096 8192 0 (moved 100))
              [Ev_ProcessClientReadInterrupt false]
              (moved 100) eq_refl eq_refl) as (Hdone & _).
  destruct Hdone as [_ Hres]; [discriminate|].
  rewrite Hres. reflexivity.
Defined.

(** The latch fires once during a write that then completes. *)
Lemma interrupt_processing_witness :
  let out := @secure_io linux_build Writing 10 plain_port 4096 8192
               (socket_world [again; moved 8192] [1] []) in
  count (is_interrupt true) (trace_of out) = 1%nat /\
  count (is_interrupt false) (trace_of out) = 1%nat.
Proof.
  cbv zeta.
  destruct (@interrupt_processing_once linux_build Writing plain_port 4096 8192
              (socket_world [again; moved 8192] [1] []) 10)
    as (Hwake & _ & _ & _ & Hret & _).
  split.
  - rewrite Hwake. reflexivity.
  - apply (Hret 8192). reflexivity.
Defined.


(** A key file of another user, world-readable as well: the ownership check
    is the one that fails, the regular-file check having passed before it. *)
Lemma checks_in_order_witness :
  exists before after,
    @posix_checks linux_build
       (key_world 70 (Z.lor S_IFREG (octal [6;4;4])) 1000)
       {| st_mode := Z.lor S_IFREG (octal [6;4;4]); st_uid := 1000 |}
    = before ++ (false, BadOwner) :: after /\
    Forall (fun c => fst c = true) before.
Proof.
  apply (@checks_in_order_first_failure linux_build "/tmp/key.pem" false
           (key_world 70 (Z.lor S_IFREG (octal [6;4;4])) 1000));
    reflexivity.
Defined.

(** ** The loops at work *)

(** The transport answers would-block twice (readable each time), then moves
    100 bytes: two waits, and 100 is returned. *)
Example would_block_twice_then_success :
  @secure_read linux_build 10 plain_port 4096 8192
     (socket_world [again; again; moved 100] [2; 2] [])
  = ([Ev_recv 7 4096 8192 0 again;
      Ev_ModifyWaitEvent FeBeWaitSet 0 2;
      Ev_WaitEventSetWait FeBeWaitSet (-1) 1 WAIT_EVENT_CLIENT_READ 2;
      Ev_recv 7 4096 8192 0 again;
      Ev_ModifyWaitEvent FeBeWaitSet 0 2;
      Ev_WaitEventSetWait FeBeWaitSet (-1) 1 WAIT_EVENT_CLIENT_READ 2;
      Ev_recv 7 4096 8192 0 (moved 100);
      Ev_ProcessClientReadInterrupt false],
     world_of (@secure_read linux_build 10 plain_port 4096 8192
                 (socket_world [again; again; moved 100] [2; 2] [])),
     Return 100).
Proof. reflexivity. Qed.

(** The latch fires during a write: it is reset, interrupts are processed,
    and the write is tried again. *)
Example latch_during_write :
  trace_of (@secure_write linux_build 10 plain_port 4096 8192
              (socket_world [again; moved 8192] [1] []))
  = [Ev_send 7 4096 8192 0 again;
     Ev_ModifyWaitEvent FeBeWaitSet 0 4;
     Ev_WaitEventSetWait FeBeWaitSet (-1) 1 WAIT_EVENT_CLIENT_WRITE 1;
     Ev_ResetLatch MyLatch;
     Ev_ProcessClientWriteInterrupt true;
     Ev_send 7 4096 8192 0 (moved 8192);
     Ev_ProcessClientWriteInterrupt false].
Proof. reflexivity. Qed.

(** A TLS provider that answers would-block without a direction trips the
    assertion of an assert-enabled build. *)
Example tls_without_direction_traps :
  @secure_read linux_build 10 tls_port 4096 8192 (socket_world [again] [2] [])
  = ([Ev_be_tls_read tls_port 4096 8192 again; Ev_TrapAssert],
     world_of (@secure_read linux_build 10 tls_port 4096 8192 (socket_world [again] [2] [])),
     Trap).
Proof. reflexivity. Qed.

(** ** Further properties of the key-file guard *)

Section FurtherKeyFile.
Context {P : Platform}.

Lemma verdict_result_trace (strict : bool) (path : string) (w w' : World)
    (v : option violation) :
  result_of (verdict strict path w' v) = result_of (verdict strict path w v) /\
  trace_of (verdict strict path w' v) = trace_of (verdict strict path w v).
Proof. destruct v as [v|]; split; reflexivity. Qed.

Lemma verdict_accepts (strict : bool) (path : string) (w : World)
    (v : option violation) :
  result_of (verdict strict path w v) = Return true <-> v = None.
Proof.
  destruct v as [v|]; cbn; split; try reflexivity; try discriminate.
  destruct strict; discriminate.
Qed.

Lemma subset_mask (m m' k : Z) :
  Z.land (octal [7;7;7;7]) k = k ->
  Z.land (perm_bits m') (perm_bits m) = perm_bits m' ->
  Z.land m k = 0 -> Z.land m' k = 0.
Proof.
  intros Hk Hsub H0.
  rewrite (group_other_of_perm_bits m' k Hk), <- Hsub, <- Z.land_assoc.
  rewrite <- (group_other_of_perm_bits m k Hk), H0. apply Z.land_0_r.
Qed.

(** X1: the verdict on a key file depends on the file type, the owner and the
    six group and other permission bits only.  The owner's own bits and the
    set-uid, set-gid and sticky bits play no part: a server-owned file of mode
    0700 or 04600 passes like one of mode 0600. *)
Theorem verdict_ignores_owner_and_special_bits (path : string) (strict : bool)
    (w w' : World) (buf buf' : struct_stat) :
  fs w path = inr buf -> fs w' path = inr buf' ->
  euid w' = euid w -> st_uid buf' = st_uid buf ->
  Z.land (st_mode buf') S_IFMT = Z.land (st_mode buf) S_IFMT ->
  Z.land (st_mode buf') (octal [7;7]) = Z.land (st_mode buf) (octal [7;7]) ->
  result_of (check_ssl_key_file_permissions path strict w')
  = result_of (check_ssl_key_file_permissions path strict w) /\
  trace_of (check_ssl_key_file_permissions path strict w')
  = trace_of (check_ssl_key_file_permissions path strict w).
Proof.
  intros Hfs Hfs' He Hu Ht Hm.
  rewrite !check_ssl_key_file_permissions_verdict.
  unfold validate_by. rewrite Hfs, Hfs'.
  replace (posix_checks w' buf') with (posix_checks w buf).
  - apply verdict_result_trace.
  - unfold posix_checks, S_ISREG, owner_trusted, access_private.
    change (Z.lor S_IRWXG S_IRWXO) with (octal [7;7]).
    now rewrite He, Hu, Ht, Hm.
Qed.

(** X2: "or less".  Taking permission bits away from a key file that is
    accepted leaves it accepted: same type, same owner, and a mode whose
    permission bits are among those of the accepted one. *)
Theorem fewer_permissions_stay_accepted (path : string) (strict : bool)
    (w w' : World) (buf buf' : struct_stat) :
  fs w path = inr buf -> fs w' path = inr buf' ->
  euid w' = euid w -> st_uid buf' = st_uid buf ->
  Z.land (st_mode buf') S_IFMT = Z.land (st_mode buf) S_IFMT ->
  Z.land (perm_bits (st_mode buf')) (perm_bits (st_mode buf)) = perm_bits (st_mode buf') ->
  result_of (check_ssl_key_file_permissions path strict w) = Return true ->
  result_of (check_ssl_key_file_permissions path strict w') = Return true.
Proof.
  intros Hfs Hfs' He Hu Ht Hsub.
  rewrite !check_ssl_key_file_permissions_verdict, !verdict_accepts.
  unfold validate_by. rewrite Hfs, Hfs'.
  unfold posix_checks, S_ISREG, owner_trusted. cbn [first_failure].
  rewrite He, Hu, Ht.
  destruct (Z.land (st_mode buf) S_IFMT =? S_IFREG); [|discriminate].
  destruct (WIN32 || CYGWIN); cbn [orb]; [reflexivity|].
  destruct ((st_uid buf =? euid w) || (st_uid buf =? 0)); [|discriminate].
  assert (Ha : access_private buf (euid w) = true ->
               access_private buf' (euid w) = true).
  { unfold access_private. rewrite !group_read_only, Hu.
    destruct (st_uid buf =? euid w); [|destruct (st_uid buf =? 0)]; auto;
      rewrite !Z.eqb_eq; apply subset_mask; auto. }
  destruct (access_private buf (euid w)); [|discriminate].
  now rewrite Ha.
Qed.

(** X3: on a WIN32 or Cygwin build every regular file is accepted as a key
    file, whoever owns it and whatever its mode; nothing is reported. *)
Theorem windows_build_accepts_any_regular_file (path : string) (strict : bool)
    (w : World) (buf : struct_stat) :
  WIN32 || CYGWIN = true ->
  fs w path = inr buf ->
  S_ISREG (st_mode buf) = true ->
  check_ssl_key_file_permissions path strict w = ([], w, Return true).
Proof.
  intros Hwin Hfs Hreg.
  rewrite check_ssl_key_file_permissions_verdict.
  unfold validate_by, posix_checks. rewrite Hfs, Hreg, Hwin. reflexivity.
Qed.

(** X4: a key file that cannot be examined ([stat] fails with errno [e]) is
    rejected on every build with the could-not-access diagnostic: the error
    code is the one for file access under [e], the message ends with the
    system's text for [e], and [errno] is left at [e].  No other check is
    made. *)
Theorem missing_key_file_is_reported (path : string) (strict : bool) (w : World)
    (e : Z) :
  fs w path = inl e ->
  let r := {| rep_level := if strict then FATAL else LOG;
              rep_code := errcode_for_file_access e;
              rep_msg := ("could not access private key file " ++ quoted path
                          ++ ": " ++ strerror e)%string;
              rep_detail := None |} in
  check_ssl_key_file_permissions path strict w
  = ([Ev_ereport r], set_errno e w, if strict then Fatal r else Return false).
Proof.
  intros Hfs. cbv zeta.
  rewrite check_ssl_key_file_permissions_verdict.
  unfold validate_by. rewrite Hfs. reflexivity.
Qed.

End FurtherKeyFile.

Lemma verdict_ignores_owner_bits_witness :
  result_of (@check_ssl_key_file_permissions linux_build "/tmp/key.pem" false
               (key_world 70 (Z.lor S_IFREG (octal [4;7;0;0])) 70))
  = Return true.
Proof.
  rewrite (proj1 (@verdict_ignores_owner_and_special_bits linux_build "/tmp/key.pem" false
             (key_world 70 (Z.lor S_IFREG (octal [6;0;0])) 70)
             (key_world 70 (Z.lor S_IFREG (octal [4;7;0;0])) 70)
             {| st_mode := Z.lor S_IFREG (octal [6;0;0]); st_uid := 70 |}
             {| st_mode := Z.lor S_IFREG (octal [4;7;0;0]); st_uid := 70 |}
             eq_refl eq_refl eq_refl eq_refl eq_refl eq_refl)).
  reflexivity.
Defined.

Lemma fewer_permissions_witness :
  result_of (@check_ssl_key_file_permissions linux_build "/tmp/key.pem" true
               (key_world 70 (Z.lor S_IFREG (octal [4;0;0])) 0))
  = Return true.
Proof.
  apply (@fewer_permissions_stay_accepted linux_build "/tmp/key.pem" true
           (key_world 70 (Z.lor S_IFREG (octal [6;4;0])) 0)
           (key_world 70 (Z.lor S_IFREG (octal [4;0;0])) 0)
           {| st_mode := Z.lor S_IFREG (octal [6;4;0]); st_uid := 0 |}
           {| st_mode := Z.lor S_IFREG (octal [4;0;0]); st_uid := 0 |});
    reflexivity.
Defined.

Lemma windows_build_witness :
  @check_ssl_key_file_permissions windows_build "/tmp/key.pem" true
     (key_world 70 (Z.lor S_IFREG (octal [7;7;7])) 1000)
  = ([], key_world 70 (Z.lor S_IFREG (octal [7;7;7])) 1000, Return true).
Proof.
  apply (@windows_build_accepts_any_regular_file windows_build "/tmp/key.pem" true
           (key_world 70 (Z.lor S_IFREG (octal [7;7;7])) 1000)
           {| st_mode := Z.lor S_IFREG (octal [7;7;7]); st_uid := 1000 |});
    reflexivity.
Defined.

Lemma missing_key_file_witness :
  result_of (@check_ssl_key_file_permissions linux_build "/tmp/absent.pem" false
               (key_world 70 (Z.lor S_IFREG (octal [6;0;0])) 70))
  = Return false /\
  errno (world_of (@check_ssl_key_file_permissions linux_build "/tmp/absent.pem" false
                     (key_world 70 (Z.lor S_IFREG (octal [6;0;0])) 70)))
  = 2.
Proof.
  rewrite (@missing_key_file_is_reported linux_build "/tmp/absent.pem" false
             (key_world 70 (Z.lor S_IFREG (octal [6;0;0])) 70) 2 eq_refl).
  split; reflexivity.
Defined.

(** ** Further properties of the dispatch loops *)

Section FurtherLoops.
Context {P : Platform}.

(** X5: a transport answer other than would-block is never retried, a
    negative count included: after a failure with any other errno (an
    interrupted call, a reset connection) the loop makes the closing
    interrupt check, and the call returns the transport's count if that
    check returns and is left through it if it raises.  The same holds for
    every answer on a non-blocking port. *)
Theorem other_errors_are_returned (d : direction) (port : Port) (ptr len : Z)
    (w : World) (fuel : nat) :
  let out := secure_io d fuel port ptr len w in
  (let r := transport w (n_io w) in
   would_block (io_n r) (io_errno r) = false \/ noblock port = true ->
   secure_io d (S fuel) port ptr len w
   = ([io_event d port ptr len r; interrupt_event d false],
      next_intr (after_io port w r),
      if interrupts w (n_intr w) then Return (io_n r) else Interrupted)) /\
  (forall pre e post r,
     trace_of out = pre ++ e :: post -> answer_of e = Some r ->
     would_block (io_n r) (io_errno r) = false \/ noblock port = true ->
     post = [interrupt_event d false] /\
     result_of out
     = (if interrupts w (n_intr w + count (is_interrupt true) pre)
        then Return (io_n r) else Interrupted)).
Proof.
  assert (Hm : forall r, would_block (io_n r) (io_errno r) = false \/ noblock port = true ->
                         must_wait port (io_n r) (io_errno r) = false).
  { intros r Hc. rewrite must_wait_spec.
    destruct Hc as [-> | ->]; [reflexivity | apply andb_false_r]. }
  cbv zeta. rewrite !secure_io_rounds. split.
  - intros Hc. apply rounds_final. now apply Hm.
  - intros pre e post r Ht Hr Hc.
    exact (no_wait_is_final_exact d port ptr len fuel w _ _ _ r Ht Hr (Hm r Hc)).
Qed.

(** X6: on a blocking port, if the transport answers would-block [k] times
    (each time with a direction to wait for), no wait reports the
    postmaster's death, interrupt processing returns, and the transport then
    gives another answer, the call returns the count of that answer with its
    errno, after exactly [k] waits and [k + 1] transport calls. *)
Theorem returns_after_k_waits (d : direction) (port : Port) (ptr len : Z)
    (w : World) (k fuel : nat) :
  noblock port = false ->
  (forall i, (i < k)%nat ->
     let r := transport w (n_io w + i) in
     would_block (io_n r) (io_errno r) = true /\
     USE_ASSERT_CHECKING && negb (truthy (waitfor_of d port r)) = false) ->
  (forall i, (i < k)%nat -> postmaster_died (waits w (n_wait w + i)) = false) ->
  (forall j, interrupts w j = true) ->
  (let r := transport w (n_io w + k) in would_block (io_n r) (io_errno r) = false) ->
  (k < fuel)%nat ->
  let r := transport w (n_io w + k) in
  let out := secure_io d fuel port ptr len w in
  result_of out = Return (io_n r) /\
  errno (world_of out) = io_errno r /\
  count is_WaitEventSetWait (trace_of out) = k /\
  count is_io (trace_of out) = S k.
Proof.
  intros Hb Hwb Hd Hi Hk Hf. cbv zeta. rewrite secure_io_rounds.
  apply rounds_after_k_waits; auto.
  - intros i Hlt. cbv zeta. rewrite must_wait_blocking by exact Hb. now apply Hwb.
  - cbv zeta. rewrite must_wait_blocking by exact Hb. exact Hk.
Qed.

(** X7: the loop has no retry limit and its waits no timeout.  On a blocking
    port whose transport answers would-block every time (with a direction),
    with the postmaster alive and interrupt processing returning, the call
    never ends: whatever the number of rounds followed, it is still going,
    having made that many transport calls and that many waits. *)
Theorem blocking_call_never_gives_up (d : direction) (port : Port) (ptr len : Z)
    (w : World) (fuel : nat) :
  noblock port = false ->
  (forall i, let r := transport w i in
     would_block (io_n r) (io_errno r) = true /\
     USE_ASSERT_CHECKING && negb (truthy (waitfor_of d port r)) = false) ->
  (forall i, postmaster_died (waits w i) = false) ->
  (forall j, interrupts w j = true) ->
  let out := secure_io d fuel port ptr len w in
  result_of out = OutOfFuel /\
  count is_io (trace_of out) = fuel /\
  count is_WaitEventSetWait (trace_of out) = fuel.
Proof.
  intros Hb Hwb Hd Hi. cbv zeta. rewrite secure_io_rounds.
  apply rounds_never_give_up; auto.
  intros i. cbv zeta. rewrite must_wait_blocking by exact Hb. apply Hwb.
Qed.


(** X9: every wait of a call is on the front-end/back-end wait set, without
    timeout (-1), for a single event, and accounted as client read for
    [secure_read], client write for [secure_write]; every latch reset is of
    the process latch; and each registration with the wait set is followed at
    once by a wait on it. *)
Theorem waits_are_issued_uniformly (d : direction) (port : Port) (ptr len : Z)
    (w : World) (fuel : nat) :
  let t := trace_of (secure_io d fuel port ptr len w) in
  (forall set timeout nevents info occurred,
     In (Ev_WaitEventSetWait set timeout nevents info occurred) t ->
     set = FeBeWaitSet /\ timeout = -1 /\ nevents = 1 /\
     info = match d with
            | Reading => WAIT_EVENT_CLIENT_READ
            | Writing => WAIT_EVENT_CLIENT_WRITE
            end) /\
  (forall l, In (Ev_ResetLatch l) t -> l = MyLatch) /\
  (forall pre set pos events post,
     t = pre ++ Ev_ModifyWaitEvent set pos events :: post ->
     exists occurred post',
       post = Ev_WaitEventSetWait FeBeWaitSet (-1) 1 (wait_info d) occurred :: post').
Proof.
  cbv zeta. rewrite secure_io_rounds.
  destruct (waits_are_uniform d port ptr len fuel w) as [H1 H2].
  rewrite Forall_forall in H1.
  split; [|split].
  - intros set timeout nevents info occurred Hin. exact (H1 _ Hin).
  - intros l Hin. exact (H1 _ Hin).
  - intros pre set pos events post Ht.
    exact (each_followed_split _ _ H2 _ _ _ Ht eq_refl).
Qed.

(** X10: [secure_read] only ever receives and [secure_write] only ever sends:
    a call produces no transport call or interrupt processing of the other
    direction.  Its transport calls go to the TLS provider exactly when the
    build has TLS and the port is in TLS mode; in a build without TLS the
    provider is never called, whatever the port says. *)
Theorem loop_keeps_to_its_direction (d : direction) (port : Port) (ptr len : Z)
    (w : World) (fuel : nat) :
  forall e, In e (trace_of (secure_io d fuel port ptr len w)) ->
    emitted_by d e = true /\
    (is_io e = true -> is_tls e = USE_SSL && ssl_in_use port) /\
    (USE_SSL = false -> is_tls e = false).
Proof.
  rewrite secure_io_rounds. intros e Hin.
  pose proof (proj1 (Forall_forall _ _)
                (rounds_stay_in_their_lane d port ptr len fuel w) e Hin) as [H1 H2].
  split; [exact H1|]. split; [exact H2|].
  intros Hssl. destruct (is_io e) eqn:Hio.
  - rewrite (H2 eq_refl). unfold encrypted. now rewrite Hssl.
  - destruct e; try reflexivity; discriminate.
Qed.

(** X11: reading and writing touch neither the file system, nor the server's
    identity, nor the file-scope variables of be-secure.c.  So after any call
    of [secure_read] or [secure_write], however it ended, the key-file check
    gives the verdict and the report it gave before, and
    [secure_loaded_verify_locations] answers as before. *)
Theorem io_leaves_trust_state_alone (d : direction) (port : Port) (ptr len : Z)
    (w : World) (fuel : nat) (path : string) (strict : bool) :
  let w' := world_of (secure_io d fuel port ptr len w) in
  globals w' = globals w /\
  result_of (check_ssl_key_file_permissions path strict w')
  = result_of (check_ssl_key_file_permissions path strict w) /\
  trace_of (check_ssl_key_file_permissions path strict w')
  = trace_of (check_ssl_key_file_permissions path strict w) /\
  result_of (secure_loaded_verify_locations w')
  = result_of (secure_loaded_verify_locations w).
Proof.
  cbv zeta. rewrite secure_io_rounds.
  destruct (rounds_frame d port ptr len fuel w) as (Hg & Hf & He & _).
  split; [exact Hg|].
  rewrite !check_ssl_key_file_permissions_verdict.
  replace (validate_by posix_checks path (world_of (rounds d port ptr len fuel w)))
    with (validate_by posix_checks path w).
  - split; [apply verdict_result_trace|]. split; [apply verdict_result_trace|].
    unfold secure_loaded_verify_locations, get, ret.
    destruct USE_SSL; cbn; [now rewrite Hg | reflexivity].
  - unfold validate_by, posix_checks, owner_trusted. rewrite Hf.
    destruct (fs w path); [reflexivity|]. now rewrite He.
Qed.

(** X12: on a WIN32 build the flag [pgwin32_noblock], raised around each
    plain [recv] or [send], is down again when a call is over, however the
    call ended and whatever the flag was before.  A call on a TLS port, or on
    another build, leaves the flag as it was. *)
Theorem windows_flag_is_lowered (d : direction) (port : Port) (ptr len : Z)
    (w : World) (fuel : nat) :
  pgwin32_noblock (world_of (secure_io d (S fuel) port ptr len w))
  = (if negb (USE_SSL && ssl_in_use port) && WIN32
     then false else pgwin32_noblock w).
Proof.
  rewrite secure_io_rounds. apply rounds_lower_the_flag.
Qed.

(** X13: [Assert(waitfor)] can fail only in an assert-enabled build, on a
    port in TLS mode, right after a would-block answer of the TLS provider
    that stored no direction (or stored 0); the socket flags being flags,
    the plain path never trips it. *)
Theorem assertion_fails_only_on_silent_provider (d : direction) (port : Port)
    (ptr len : Z) (w : World) (fuel : nat) :
  WL_SOCKET_READABLE <> 0 -> WL_SOCKET_WRITEABLE <> 0 ->
  let out := secure_io d fuel port ptr len w in
  result_of out = Trap ->
  USE_ASSERT_CHECKING = true /\
  USE_SSL && ssl_in_use port = true /\
  exists pre r,
    trace_of out = pre ++ [io_event d port ptr len r; Ev_TrapAssert] /\
    would_block (io_n r) (io_errno r) = true /\
    noblock port = false /\
    (io_waitfor r = None \/ io_waitfor r = Some 0).
Proof.
  intros Hr Hw. cbv zeta. rewrite secure_io_rounds. intros Ht.
  destruct (trap_has_a_cause d port ptr len fuel w Ht) as (Hu & pre & r & Htr & Hm & Hz).
  apply must_wait_would_block in Hm as [Hwb Hnb].
  unfold waitfor_of in Hz. fold (encrypted port).
  destruct (encrypted port).
  - split; [exact Hu|]. split; [reflexivity|]. exists pre, r.
    repeat split; auto.
    destruct (io_waitfor r) as [x|]; [right; now subst | now left].
  - exfalso. destruct d; cbn in Hz; contradiction.
Qed.

End FurtherLoops.

Lemma other_errors_witness :
  result_of (@secure_io linux_build Reading 10 plain_port 4096 8192
               (socket_world [again; {| io_n := -1; io_errno := 104; io_waitfor := None |}]
                             [2] []))
  = Return (-1).
Proof.
  destruct (@other_errors_are_returned linux_build Reading plain_port 4096 8192
              (socket_world [again; {| io_n := -1; io_errno := 104; io_waitfor := None |}]
                            [2] []) 10) as (_ & H).
  destruct (H [Ev_recv 7 4096 8192 0 again;
               Ev_ModifyWaitEvent FeBeWaitSet 0 2;
               Ev_WaitEventSetWait FeBeWaitSet (-1) 1 WAIT_EVENT_CLIENT_READ 2]
              (Ev_recv 7 4096 8192 0 {| io_n := -1; io_errno := 104; io_waitfor := None |})
              [Ev_ProcessClientReadInterrupt false]
              {| io_n := -1; io_errno := 104; io_waitfor := None |}
              eq_refl eq_refl (or_introl eq_refl)) as (_ & Hres).
  rewrite Hres. reflexivity.
Defined.

Lemma returns_after_k_waits_witness :
  let out := @secure_io linux_build Writing 10 plain_port 4096 8192
               (socket_world [again; again; moved 8192] [4; 1] []) in
  result_of out = Return 8192 /\
  errno (world_of out) = 0 /\
  count is_WaitEventSetWait (trace_of out) = 2%nat /\
  count is_io (trace_of out) = 3%nat.
Proof.
  apply (@returns_after_k_waits linux_build Writing plain_port 4096 8192
           (socket_world [again; again; moved 8192] [4; 1] []) 2 10).
  - reflexivity.
  - intros i Hi. destruct i as [|[|i]]; [split; reflexivity | split; reflexivity | lia].
  - intros i Hi. destruct i as [|[|i]]; [reflexivity | reflexivity | lia].
  - intros j. cbn. now destruct j as [|j]; [|destruct j].
  - reflexivity.
  - lia.
Defined.

Lemma never_gives_up_witness :
  let out := @secure_io linux_build Reading 25 plain_port 4096 8192 stuck_world in
  result_of out = OutOfFuel /\
  count is_io (trace_of out) = 25%nat /\
  count is_WaitEventSetWait (trace_of out) = 25%nat.
Proof.
  apply (@blocking_call_never_gives_up linux_build Reading plain_port 4096 8192
           stuck_world 25).
  - reflexivity.
  - intros i. split; reflexivity.
  - intros i. reflexivity.
  - intros j. reflexivity.
Defined.


Lemma assertion_fails_witness :
  @USE_ASSERT_CHECKING linux_build = true /\
  @USE_SSL linux_build && ssl_in_use tls_port = true.
Proof.
  destruct (@assertion_fails_only_on_silent_provider linux_build Reading tls_port
              4096 8192 (socket_world [again] [2] []) 10) as (H1 & H2 & _).
  - discriminate.
  - discriminate.
  - reflexivity.
  - split; [exact H1 | exact H2].
Defined.

Lemma loop_keeps_to_its_direction_witness :
  emitted_by Reading (Ev_recv 7 4096 8192 0 (moved 100)) = true /\
  is_tls (Ev_recv 7 4096 8192 0 (moved 100)) = false.
Proof.
  destruct (@loop_keeps_to_its_direction linux_build Reading plain_port 4096 8192
              (socket_world [again; moved 100] [2] []) 10
              (Ev_recv 7 4096 8192 0 (moved 100)))
    as (H1 & H2 & _).
  - cbn. auto 10.
  - split; [exact H1 | exact (H2 eq_refl)].
Defined.
